(** * Product catalogue backend: a shallow embedding of the server variants

    The repository holds several generations of one Express server
    ([server.js]): a plain JSON CRUD server, a multipart server that uploads
    files to the media store before saving, and a category-aware server that
    keeps a [Category] collection next to the [Product] collection.

    The embedding follows the handlers line by line.  The document store is
    two lists of documents; the handlers are functions from the request and
    the store to a response and the next store.  What the third-party
    libraries do (the document mapper, the promise combinator, multipart
    parsing) is written out as the small functions of the modules [Js],
    [Product] and [Category] below.  The route that only forwards to the
    media store ([POST /api/upload]) is left out. *)

From Stdlib Require Import Ascii String.
From stdpp Require Import base numbers option list strings sorting.

Local Open Scope string_scope.
Local Open Scope Z_scope.
Local Open Scope list_scope.

(** ** JavaScript values and the runtime functions the handlers call *)

Module Js.

(** What [JSON.parse] yields for the entries of a variants array and for
    the fields of a variant document.  Numbers are integers here: no
    handler computes with a price.  The schema of a variant is
    [{size, price, image}], all scalars, so arrays are left out. *)
#[local] Unset Elimination Schemes.
Inductive value : Type :=
| Null
| Bool (b : bool)
| Num (n : Z)
| Str (s : string)
| Obj (fields : list (string * value)).
#[local] Set Elimination Schemes.

(** [if (v)]: objects are always truthy, [null], [false], [0] and the empty
    string are not. *)
Definition truthy (v : value) : bool :=
  match v with
  | Null => false
  | Bool b => b
  | Num n => negb (n =? 0)
  | Str s => negb (String.eqb s "")
  | Obj _ => true
  end.

(** [o[k] = v] on the own properties of an object: an existing key keeps its
    place, a new key goes last. *)
Fixpoint put (k : string) (v : value) (fields : list (string * value))
  : list (string * value) :=
  match fields with
  | [] => [(k, v)]
  | (k', v') :: rest =>
      if String.eqb k k' then (k', v) :: rest else (k', v') :: put k v rest
  end.


(** [x.k = v] in non-strict code: on a primitive the assignment is dropped
    without an error.  ([null.k = v] raises; the handlers only assign after
    a truthiness test, which [null] does not pass.) *)
Definition set_prop (k : string) (v : value) (x : value) : value :=
  match x with
  | Obj fields => Obj (put k v fields)
  | _ => x
  end.


(** [s.split(sep)] for a one-character separator. *)
Fixpoint split_from (sep : ascii) (cur : string) (s : string) : list string :=
  match s with
  | EmptyString => [cur]
  | String c rest =>
      if Ascii.eqb c sep then cur :: split_from sep "" rest
      else split_from sep (cur +:+ String c "") rest
  end.

Definition split (sep : ascii) (s : string) : list string :=
  split_from sep "" s.

(** [s.startsWith(p)] *)
Definition startsWith (p s : string) : bool := String.prefix p s.

(** White space that [parseInt] skips, for characters below 256. *)
Definition is_space (c : ascii) : bool :=
  let n := nat_of_ascii c in
  ((9 <=? n) && (n <=? 13) || (n =? 32) || (n =? 160))%nat.

Fixpoint skip_spaces (s : string) : string :=
  match s with
  | String c rest => if is_space c then skip_spaces rest else s
  | EmptyString => s
  end.

(** The value of a character as a digit, if it is one below the radix. *)
Definition digit (radix : Z) (c : ascii) : option Z :=
  let n := Z.of_nat (nat_of_ascii c) in
  let d :=
    if (48 <=? n) && (n <=? 57) then Some (n - 48)
    else if (97 <=? n) && (n <=? 122) then Some (n - 87)
    else if (65 <=? n) && (n <=? 90) then Some (n - 55)
    else None in
  match d with
  | Some d => if d <? radix then Some d else None
  | None => None
  end.

(** The longest prefix of digits, read left to right; [None] when the
    string does not start with a digit. *)
Fixpoint digits (radix : Z) (acc : option Z) (s : string) : option Z :=
  match s with
  | EmptyString => acc
  | String c rest =>
      match digit radix c with
      | Some d => digits radix (Some (default 0 acc * radix + d)) rest
      | None => acc
      end
  end.

(** [parseInt(s)] with no radix argument; [None] is [NaN].  The result is
    the exact integer (a negative zero reads as [0], which is the array
    slot it addresses). *)
Definition parseInt (s : string) : option Z :=
  let s := skip_spaces s in
  let '(sign, s) :=
    match s with
    | String "-" rest => (-1, rest)
    | String "+" rest => (1, rest)
    | _ => (1, s)
    end in
  let '(radix, s) :=
    match s with
    | String "0" (String "x" rest) => (16, rest)
    | String "0" (String "X" rest) => (16, rest)
    | _ => (10, s)
    end in
  Z.mul sign <$> digits radix None s.

(** [parseInt(x)] where [x] may be [undefined]. *)
Definition parseInt_opt (x : option string) : option Z :=
  x ≫= parseInt.

(** [a[i]] for an array [a] and a number [i]: [undefined] for [NaN], for a
    negative index and past the end. *)
Definition at_index {A : Type} (a : list A) (i : option Z) : option A :=
  match i with
  | Some n => if 0 <=? n then a !! Z.to_nat n else None
  | None => None
  end.

(** An exception or a rejection reason: only its [message] is ever read. *)
Record Error := error { message : string }.

(** How a promise settles. *)
Inductive settled (A E : Type) : Type :=
| Fulfilled (a : A)
| Rejected (e : E).
Global Arguments Fulfilled {A E} a.
Global Arguments Rejected {A E} e.

(** [Promise.all(promises)].  [promises] gives how each input promise
    settles and [order] the order in which they do so.  Each fulfilment
    stores its value in the slot of its own index and counts down; the
    last one fulfils the result with the slots.  The first rejection
    rejects the result.  [None]: the result is still pending when [order]
    is exhausted. *)
Section PromiseAll.
Context {A E : Type}.

Fixpoint all_from (promises : list (settled A E)) (values : list (option A))
    (remaining : nat) (order : list nat) : option (settled (list A) E) :=
  match order with
  | [] => None
  | i :: order' =>
      match promises !! i, values !! i with
      | Some (Rejected e), _ => Some (Rejected e)
      | Some (Fulfilled a), Some None =>
          let values' := <[i := Some a]> values in
          match remaining with
          | 1%nat => Some (Fulfilled (omap id values'))
          | _ => all_from promises values' (pred remaining) order'
          end
      | _, _ => all_from promises values remaining order'
      end
  end.

Definition all (promises : list (settled A E)) (order : list nat)
  : option (settled (list A) E) :=
  match promises with
  | [] => Some (Fulfilled [])
  | _ => all_from promises (replicate (length promises) None)
           (length promises) order
  end.
End PromiseAll.

(** [a.forEach((x, index) => ...)] threading the variables the callback
    updates. *)
Fixpoint forEach_from {A St : Type} (f : St → A → nat → St) (index : nat)
    (a : list A) (s : St) : St :=
  match a with
  | [] => s
  | x :: rest => forEach_from f (S index) rest (f s x index)
  end.

Definition forEach {A St : Type} (f : St → A → nat → St) (a : list A) (s : St) : St :=
  forEach_from f 0 a s.

End Js.

(** What an [await] inside [try] gives back: the value, or the exception that
    the [catch] block receives. *)
Inductive result (A : Type) : Type :=
| Ok (a : A)
| Throw (e : Js.Error).
Arguments Ok {A} a.
Arguments Throw {A} e.

(** ** The document store

    Identifiers are the store's own ([ObjectId]); a route parameter is taken
    as already read as one.  A collection is the list of its documents in
    insertion order.  The mapper's type casts are the identity: requests carry
    values of the schema's types. *)

Definition ObjectId := N.

(** [required: true] on a [String] path: the value must be present and not
    the empty string. *)
Definition required (v : option string) : bool :=
  match v with
  | Some s => negb (String.eqb s "")
  | None => false
  end.

(** The plain object handed to [new Product(...)] and to
    [findByIdAndUpdate]; [None] is a key that is missing or [undefined]. *)
Module Body.
Record t := make {
  name : option string;
  category : option string;
  description : option string;
  price : option Z;
  img : option string;
  images : option (list string);
  variants : option (list Js.value)
}.
End Body.

Module Product.

(** [productSchema]: the array paths default to the empty array. *)
Record t := make {
  _id : ObjectId;
  name : option string;
  category : option string;
  description : option string;
  price : option Z;
  img : option string;
  images : list string;
  variants : list Js.value
}.

(** [new Product(o)] with the identifier generated for it. *)
Definition new (id : ObjectId) (o : Body.t) : t :=
  {| _id := id;
     name := Body.name o;
     category := Body.category o;
     description := Body.description o;
     price := Body.price o;
     img := Body.img o;
     images := default [] (Body.images o);
     variants := default [] (Body.variants o) |}.

(** Validation before a save: [name] and [category] are required. *)
Definition validate (p : t) : result unit :=
  if negb (required (name p)) then
    Throw (Js.error "Product validation failed: name: Path `name` is required.")
  else if negb (required (category p)) then
    Throw (Js.error "Product validation failed: category: Path `category` is required.")
  else Ok ().

(** [p.save()] for a new document: the collection with [p] inserted. *)
Definition save (p : t) (coll : list t) : result (list t) :=
  match validate p with
  | Ok _ => Ok (coll ++ [p])
  | Throw e => Throw e
  end.

(** [Product.find({})] *)
Definition find (coll : list t) : list t := coll.

(** [Product.findByIdAndDelete(id)]: the deleted document and the collection
    without it, or [None] when no document has this identifier. *)
Fixpoint findByIdAndDelete (id : ObjectId) (coll : list t) : option (t * list t) :=
  match coll with
  | [] => None
  | p :: rest =>
      if N.eqb (_id p) id then Some (p, rest)
      else match findByIdAndDelete id rest with
           | Some (q, rest') => Some (q, p :: rest')
           | None => None
           end
  end.

(** The update [{$set: o}] applied to one document.  The mapper drops a key
    whose value is [undefined] from an update, so the stored value of that
    key stays. *)
Definition set (o : Body.t) (p : t) : t :=
  {| _id := _id p;
     name := match Body.name o with Some v => Some v | None => name p end;
     category := match Body.category o with Some v => Some v | None => category p end;
     description :=
       match Body.description o with Some v => Some v | None => description p end;
     price := match Body.price o with Some v => Some v | None => price p end;
     img := match Body.img o with Some v => Some v | None => img p end;
     images := default (images p) (Body.images o);
     variants := default (variants p) (Body.variants o) |}.

(** [Product.findByIdAndUpdate(id, o, { new: true })]: the updated document
    and the collection holding it, or [None] when no document has this
    identifier. *)
Fixpoint findByIdAndUpdate (id : ObjectId) (o : Body.t) (coll : list t)
  : option (t * list t) :=
  match coll with
  | [] => None
  | p :: rest =>
      if N.eqb (_id p) id then Some (set o p, set o p :: rest)
      else match findByIdAndUpdate id o rest with
           | Some (q, rest') => Some (q, p :: rest')
           | None => None
           end
  end.

(** The filter [{ category: c }]. *)
Definition in_category (c : option string) (p : t) : bool :=
  bool_decide (category p = c).

(** [Product.countDocuments({ category: c })] *)
Definition countDocuments (c : option string) (coll : list t) : nat :=
  length (List.filter (in_category c) coll).

(** [Product.updateMany({ category: c }, { $set: { category: c' } })] *)
Definition updateMany (c c' : option string) (coll : list t) : list t :=
  List.map (fun p =>
    if in_category c p then
      {| _id := _id p; name := name p; category := c';
         description := description p; price := price p; img := img p;
         images := images p; variants := variants p |}
    else p) coll.

(** [Product.deleteMany({ category: c })] *)
Definition deleteMany (c : option string) (coll : list t) : list t :=
  List.filter (fun p => negb (in_category c p)) coll.

(** [Product.distinct('category')]: every category value of the collection
    once.  The store fixes no order of the values. *)
Definition distinct (coll : list t) : list string :=
  remove_dups (omap category coll).

End Product.

Module Category.

(** [categorySchema]: a unique, required [name] and a [position]. *)
Record t := make {
  _id : ObjectId;
  name : option string;
  position : Z
}.

(** [new Category({ name, position })] with the identifier generated for it. *)
Definition new (id : ObjectId) (n : option string) (pos : Z) : t :=
  {| _id := id; name := n; position := pos |}.

(** The filter [{ name: n }]. *)
Definition named (n : option string) (c : t) : bool :=
  bool_decide (name c = n).

(** [Category.findOne({ name: n })] *)
Definition findOne (n : option string) (coll : list t) : option t :=
  List.find (named n) coll.

(** The sort keys ['position'] and ['-position']. *)
Definition ascending (a b : t) : Prop := position a ≤ position b.
Definition descending (a b : t) : Prop := position b ≤ position a.

#[global] Instance ascending_dec a b : Decision (ascending a b) :=
  Z_le_dec (position a) (position b).
#[global] Instance descending_dec a b : Decision (descending a b) :=
  Z_le_dec (position b) (position a).

(** [Category.find().sort('position')] *)
Definition find_sort_position (coll : list t) : list t :=
  merge_sort ascending coll.

(** [Category.findOne().sort('-position')]: the first document in descending
    order of position. *)
Definition findOne_sort_position_desc (coll : list t) : option t :=
  head (merge_sort descending coll).

Definition validate (c : t) : result unit :=
  if required (name c) then Ok ()
  else Throw (Js.error "Category validation failed: name: Path `name` is required.").

(** [c.save()] for a new document; the unique index on [name] refuses a
    second document of the same name. *)
Definition save (c : t) (coll : list t) : result (list t) :=
  match validate c with
  | Throw e => Throw e
  | Ok _ =>
      if existsb (named (name c)) coll then
        Throw (Js.error "E11000 duplicate key error")
      else Ok (coll ++ [c])
  end.

Definition set_position (pos : Z) (c : t) : t :=
  {| _id := _id c; name := name c; position := pos |}.

Definition set_name (n : option string) (c : t) : t :=
  {| _id := _id c; name := n; position := position c |}.

(** [Category.updateOne({ name: n }, { $set: ... })]: the first document of
    that name is updated; without one nothing happens (and nothing fails). *)
Fixpoint updateOne (n : option string) (f : t → t) (coll : list t) : list t :=
  match coll with
  | [] => []
  | c :: rest => if named n c then f c :: rest else c :: updateOne n f rest
  end.

(** [Category.deleteOne({ name: n })] *)
Fixpoint deleteOne (n : option string) (coll : list t) : list t :=
  match coll with
  | [] => []
  | c :: rest => if named n c then rest else c :: deleteOne n rest
  end.

End Category.

(** ** Responses *)

Inductive json : Type :=
| Products (ps : list Product.t)
| ProductDoc (p : Product.t)
| Categories (cs : list Category.t)
| Message (m : string).

(** [res.status(s).json(b)]; [res.json(b)] leaves the status at 200. *)
Record response := respond { status : nat; body : json }.

(** ** The plain server ([src/server.js]) *)

Module Server.

(** [GET /api/products] *)
Definition get_products (coll : list Product.t) : response * list Product.t :=
  let products := Product.find coll in
  (respond 200 (Products products), coll).

(** [POST /api/products]; [id] is the identifier generated for the new
    document. *)
Definition post_products (id : ObjectId) (body : Body.t) (coll : list Product.t)
  : response * list Product.t :=
  let product := Product.new id body in
  match Product.save product coll with
  | Ok coll' => (respond 201 (ProductDoc product), coll')
  | Throw e => (respond 400 (Message (Js.message e)), coll)
  end.

(** [PUT /api/products/:id] *)
Definition put_product (id : ObjectId) (body : Body.t) (coll : list Product.t)
  : response * list Product.t :=
  match Product.findByIdAndUpdate id body coll with
  | None => (respond 404 (Message "Product not found"), coll)
  | Some (updatedProduct, coll') => (respond 200 (ProductDoc updatedProduct), coll')
  end.

(** [DELETE /api/products/:id] *)
Definition delete_product (id : ObjectId) (coll : list Product.t)
  : response * list Product.t :=
  match Product.findByIdAndDelete id coll with
  | None => (respond 404 (Message "Product not found"), coll)
  | Some (_, coll') => (respond 200 (Message "Product deleted successfully"), coll')
  end.

End Server.

(** ** The multipart server ([src/unnamed/part_000], and the first file of
    [src/unnamed/part_001], whose product handlers are the same)

    Its list and delete handlers are those of the plain server. *)

Module Form.

(** A text field that holds JSON: missing or empty, not parseable, or the
    parsed array. *)
Inductive json_text (A : Type) : Type :=
| Absent
| Malformed (e : Js.Error)
| Text (a : A).
Arguments Absent {A}.
Arguments Malformed {A} e.
Arguments Text {A} a.

(** [field ? JSON.parse(field) : []] *)
Definition parse_or_empty {A : Type} (field : json_text (list A)) : result (list A) :=
  match field with
  | Absent => Ok []
  | Malformed e => Throw e
  | Text a => Ok a
  end.

(** [req.body] of a multipart request. *)
Record t := make {
  name : option string;
  category : option string;
  description : option string;
  price : option Z;
  variants : json_text (list Js.value);
  existingImages : json_text (list string)
}.

End Form.

Module Multipart.

(** An entry of [req.files]. *)
Record File := { fieldname : string; buffer : list Byte.byte }.

(** What the media store answers for an upload. *)
Record UploadResult := { secure_url : string }.

(** The media store as one request sees it: how the upload started by the
    [index]-th call settles, and the order in which the uploads of the
    request settle. *)
Record Cloudinary := {
  upload_stream : nat → list Byte.byte → Js.settled UploadResult Js.Error;
  completion : list nat
}.

Definition uploadToCloudinary (cloud : Cloudinary) (index : nat)
    (fileBuffer : list Byte.byte) : Js.settled UploadResult Js.Error :=
  upload_stream cloud index fileBuffer.

(** [files.map(file => uploadToCloudinary(file.buffer))] *)
Definition uploadPromises (cloud : Cloudinary) (files : list File)
  : list (Js.settled UploadResult Js.Error) :=
  imap (fun index file => uploadToCloudinary cloud index (buffer file)) files.

(** [parseInt(originalField.split('_')[2])] *)
Definition variantIndex (originalField : string) : option Z :=
  Js.parseInt_opt (Js.split "_" originalField !! 2%nat).

(** [if (variants[variantIndex])]: a missing entry is [undefined], which is
    not truthy. *)
Definition present (v : option Js.value) : bool :=
  match v with
  | Some v => Js.truthy v
  | None => false
  end.

(** [variants[variantIndex].image = url], on the entry itself. *)
Definition assign_image (variantIndex : option Z) (url : string)
    (variants : list Js.value) : list Js.value :=
  match variantIndex with
  | Some n =>
      if 0 <=? n then
        alter (Js.set_prop "image" (Js.Str url)) (Z.to_nat n) variants
      else variants
  | None => variants
  end.

(** The body of the callback of [uploadResults.forEach] once the field name
    of the file is read: the state is the list of main image URLs and the
    variants array. *)
Definition route_field (originalField : string)
    (state : list string * list Js.value) (result : UploadResult)
  : list string * list Js.value :=
  let '(mainImageUrls, variants) := state in
  if String.eqb originalField "images" then
    (mainImageUrls ++ [secure_url result], variants)
  else if Js.startsWith "variant_image_" originalField then
    let variantIndex := variantIndex originalField in
    if present (Js.at_index variants variantIndex) then
      (mainImageUrls, assign_image variantIndex (secure_url result) variants)
    else state
  else state.

(** The callback [(result, index) => ...], with
    [originalField = files[index].fieldname]. *)
Definition route (files : list File) (state : list string * list Js.value)
    (result : UploadResult) (index : nat) : list string * list Js.value :=
  match files !! index with
  | None => state
  | Some file => route_field (fieldname file) state result
  end.

(** The object both handlers build from the fields and the routed URLs. *)
Definition product_data (body : Form.t) (images : list string)
    (variants : list Js.value) : Body.t :=
  {| Body.name := Form.name body;
     Body.category := Form.category body;
     Body.description := Form.description body;
     Body.images := Some images;
     Body.img := None;
     Body.price := if (0 <? length variants)%nat then None else Form.price body;
     Body.variants := if (0 <? length variants)%nat then Some variants else None |}.

Definition server_error (m : string) : response := respond 500 (Message m).

(** [POST /api/products].  [None]: the handler is still waiting for the
    uploads. *)
Definition post_products (cloud : Cloudinary) (id : ObjectId) (body : Form.t)
    (files : list File) (coll : list Product.t)
  : option (response * list Product.t) :=
  match Form.parse_or_empty (Form.variants body) with
  | Throw _ => Some (server_error "Server error while creating product.", coll)
  | Ok variants =>
      match Js.all (uploadPromises cloud files) (completion cloud) with
      | None => None
      | Some (Js.Rejected _) =>
          Some (server_error "Server error while creating product.", coll)
      | Some (Js.Fulfilled uploadResults) =>
          let '(mainImageUrls, variants) :=
            Js.forEach (route files) uploadResults ([], variants) in
          let newProduct :=
            Product.new id (product_data body mainImageUrls variants) in
          match Product.save newProduct coll with
          | Ok coll' => Some (respond 201 (ProductDoc newProduct), coll')
          | Throw _ =>
              Some (server_error "Server error while creating product.", coll)
          end
      end
  end.

(** [PUT /api/products/:id] *)
Definition put_product (cloud : Cloudinary) (id : ObjectId) (body : Form.t)
    (files : list File) (coll : list Product.t)
  : option (response * list Product.t) :=
  match Form.parse_or_empty (Form.variants body) with
  | Throw _ => Some (server_error "Server error while updating product.", coll)
  | Ok variants =>
      match Form.parse_or_empty (Form.existingImages body) with
      | Throw _ => Some (server_error "Server error while updating product.", coll)
      | Ok existingImages =>
          match Js.all (uploadPromises cloud files) (completion cloud) with
          | None => None
          | Some (Js.Rejected _) =>
              Some (server_error "Server error while updating product.", coll)
          | Some (Js.Fulfilled uploadResults) =>
              let '(existingImages, variants) :=
                Js.forEach (route files) uploadResults (existingImages, variants) in
              let updatedProductData := product_data body existingImages variants in
              match Product.findByIdAndUpdate id updatedProductData coll with
              | None => Some (respond 404 (Message "Product not found."), coll)
              | Some (updatedProduct, coll') =>
                  Some (respond 200 (ProductDoc updatedProduct), coll')
              end
          end
      end
  end.

(** [GET /api/categories] of the second multipart server (the first file of
    [src/unnamed/part_001]): the categories in use, each as an object with a
    [name] key.  The answer is the status and the array. *)
Definition get_categories (coll : list Product.t) : nat * list Js.value :=
  let categories := Product.distinct coll in
  let categoryObjects :=
    (fun name => Js.Obj [("name", Js.Str name)]) <$> categories in
  (200%nat, categoryObjects).

End Multipart.

(** ** The category-aware server (the last file of [src/unnamed/part_001]) *)

Record DB := { products : list Product.t; categories : list Category.t }.

Module Catalog.

(** [findOrCreateCategory(categoryName)]; [id] is the identifier generated
    for the category if one is created. *)
Definition findOrCreateCategory (id : ObjectId) (categoryName : option string)
    (coll : list Category.t) : result (Category.t * list Category.t) :=
  match Category.findOne categoryName coll with
  | Some category => Ok (category, coll)
  | None =>
      let highestPositionCategory := Category.findOne_sort_position_desc coll in
      let newPosition :=
        match highestPositionCategory with
        | Some c => Category.position c + 1
        | None => 0
        end in
      let category := Category.new id categoryName newPosition in
      match Category.save category coll with
      | Ok coll' => Ok (category, coll')
      | Throw e => Throw e
      end
  end.

(** [GET /api/products] *)
Definition get_products (db : DB) : response * DB :=
  (respond 200 (Products (Product.find (products db))), db).

(** [GET /api/categories] *)
Definition get_categories (db : DB) : response * DB :=
  (respond 200 (Categories (Category.find_sort_position (categories db))), db).

(** [POST /api/products]; [cid] and [pid] are the identifiers generated for
    the category and for the product. *)
Definition post_products (cid pid : ObjectId) (body : Body.t) (db : DB)
  : response * DB :=
  match findOrCreateCategory cid (Body.category body) (categories db) with
  | Throw e => (respond 400 (Message ("Failed to add product: " +:+ Js.message e)), db)
  | Ok (_, categories') =>
      let product := Product.new pid body in
      match Product.save product (products db) with
      | Ok products' =>
          (respond 201 (ProductDoc product),
           {| products := products'; categories := categories' |})
      | Throw e =>
          (respond 400 (Message ("Failed to add product: " +:+ Js.message e)),
           {| products := products db; categories := categories' |})
      end
  end.

(** [PUT /api/products/:id] *)
Definition put_product (cid id : ObjectId) (body : Body.t) (db : DB)
  : response * DB :=
  match findOrCreateCategory cid (Body.category body) (categories db) with
  | Throw e =>
      (respond 400 (Message ("Failed to update product: " +:+ Js.message e)), db)
  | Ok (_, categories') =>
      match Product.findByIdAndUpdate id body (products db) with
      | None =>
          (respond 404 (Message "Product not found"),
           {| products := products db; categories := categories' |})
      | Some (updatedProduct, products') =>
          (respond 200 (ProductDoc updatedProduct),
           {| products := products'; categories := categories' |})
      end
  end.

(** The position updates of a reorder request, one per listed name. *)
Definition order_updates (orderedCategories : list string)
  : list (list Category.t → list Category.t) :=
  imap (fun index categoryName =>
          Category.updateOne (Some categoryName)
            (Category.set_position (Z.of_nat index)))
       orderedCategories.

(** The store executing the updates in the order [order] (indices into the
    list of updates). *)
Fixpoint execute (updates : list (list Category.t → list Category.t))
    (order : list nat) (coll : list Category.t) : list Category.t :=
  match order with
  | [] => coll
  | i :: order' =>
      execute updates order'
        (match updates !! i with Some update => update coll | None => coll end)
  end.

(** [PUT /api/categories/order].  The updates are all started and then
    awaited together; [order] is the order in which the store executes them.
    A body without [orderedCategories] makes [.map] raise.  [None]: the
    handler is still waiting. *)
Definition put_categories_order (orderedCategories : option (list string))
    (order : list nat) (db : DB) : option (response * DB) :=
  match orderedCategories with
  | None =>
      Some (respond 500 (Message
        ("Failed to update category order: "
         +:+ "Cannot read properties of undefined (reading 'map')")), db)
  | Some orderedCategories =>
      let updates := order_updates orderedCategories in
      let promises : list (Js.settled unit Js.Error) :=
        List.map (fun _ => Js.Fulfilled ()) updates in
      match Js.all promises order with
      | None => None
      | Some (Js.Rejected e) =>
          Some (respond 500 (Message
                  ("Failed to update category order: " +:+ Js.message e)),
                {| products := products db;
                   categories := execute updates order (categories db) |})
      | Some (Js.Fulfilled _) =>
          Some (respond 200 (Message "Category order updated successfully."),
                {| products := products db;
                   categories := execute updates order (categories db) |})
      end
  end.

(** [!newName] *)
Definition missing (newName : option string) : bool :=
  match newName with
  | Some s => String.eqb s ""
  | None => true
  end.

(** [PUT /api/categories/:name]; [oldName] is the decoded path parameter. *)
Definition put_category_name (oldName : string) (newName : option string)
    (db : DB) : response * DB :=
  if missing newName then
    (respond 400 (Message "New category name is required."), db)
  else
    match Category.findOne newName (categories db) with
    | Some existingCategory =>
        (respond 409
           (Message ("Category '" +:+ default "" newName +:+ "' already exists.")),
         db)
    | None =>
        let products' := Product.updateMany (Some oldName) newName (products db) in
        let categories' :=
          Category.updateOne (Some oldName) (Category.set_name newName)
            (categories db) in
        (respond 200
           (Message ("Category '" +:+ oldName
                     +:+ "' was successfully renamed to '"
                     +:+ default "" newName +:+ "'.")),
         {| products := products'; categories := categories' |})
    end.

(** [DELETE /api/products/:id] *)
Definition delete_product (id : ObjectId) (db : DB) : response * DB :=
  match Product.findByIdAndDelete id (products db) with
  | None => (respond 404 (Message "Product not found"), db)
  | Some (product, products') =>
      let remainingProducts :=
        Product.countDocuments (Product.category product) products' in
      let categories' :=
        if (remainingProducts =? 0)%nat then
          Category.deleteOne (Product.category product) (categories db)
        else categories db in
      (respond 200 (Message "Product deleted successfully"),
       {| products := products'; categories := categories' |})
  end.

(** [DELETE /api/categories/:name]; [categoryName] is the decoded path
    parameter. *)
Definition delete_category (categoryName : string) (db : DB) : response * DB :=
  match Category.findOne (Some categoryName) (categories db) with
  | None => (respond 404 (Message "Category not found"), db)
  | Some category =>
      let products' := Product.deleteMany (Some categoryName) (products db) in
      let categories' := Category.deleteOne (Some categoryName) (categories db) in
      (respond 200
         (Message ("Category '" +:+ categoryName
                   +:+ "' and all its products have been deleted.")),
       {| products := products'; categories := categories' |})
  end.

(** The routes of the server, in the order they are registered
    ([/api/categories/order] before [/api/categories/:name]), with what each
    request brings. *)
Inductive request : Type :=
| GetProducts
| GetCategories
| PostProducts (cid pid : ObjectId) (body : Body.t)
| PutProduct (cid id : ObjectId) (body : Body.t)
| PutCategoriesOrder (orderedCategories : option (list string)) (order : list nat)
| PutCategoryName (oldName : string) (newName : option string)
| DeleteProduct (id : ObjectId)
| DeleteCategory (categoryName : string).

Definition handle (r : request) (db : DB) : option (response * DB) :=
  match r with
  | GetProducts => Some (get_products db)
  | GetCategories => Some (get_categories db)
  | PostProducts cid pid body => Some (post_products cid pid body db)
  | PutProduct cid id body => Some (put_product cid id body db)
  | PutCategoriesOrder orderedCategories order =>
      put_categories_order orderedCategories order db
  | PutCategoryName oldName newName => Some (put_category_name oldName newName db)
  | DeleteProduct id => Some (delete_product id db)
  | DeleteCategory categoryName => Some (delete_category categoryName db)
  end.

End Catalog.

(** ** Vocabulary of the properties *)


(** Every upload of the request succeeds, and all of them settle. *)
Definition uploads_succeed (cloud : Multipart.Cloudinary)
    (files : list Multipart.File) : Prop :=
  (∀ i f, files !! i = Some f →
     ∃ r, Multipart.upload_stream cloud i (Multipart.buffer f) = Js.Fulfilled r)
  ∧ Multipart.completion cloud ≡ₚ seq 0 (length files).

(** The upload results of a request, file by file. *)
Definition uploaded (cloud : Multipart.Cloudinary) (files : list Multipart.File)
  : list Multipart.UploadResult :=
  imap (fun index file =>
          match Multipart.upload_stream cloud index (Multipart.buffer file) with
          | Js.Fulfilled r => r
          | Js.Rejected _ => {| Multipart.secure_url := "" |}
          end) files.

(** The routing of the results, file by file. *)
Definition routed (files : list Multipart.File)
    (results : list Multipart.UploadResult)
    (state : list string * list Js.value) : list string * list Js.value :=
  foldl (fun st fr => Multipart.route_field (Multipart.fieldname fr.1) st fr.2)
        state (zip files results).

(** The media store of the same request sent without its [j]-th file: the
    later uploads move up by one, and the uploads settle in the order
    [order]. *)
Definition without_upload (j : nat) (order : list nat)
    (cloud : Multipart.Cloudinary) : Multipart.Cloudinary :=
  {| Multipart.upload_stream i fileBuffer :=
       Multipart.upload_stream cloud (if (i <? j)%nat then i else S i) fileBuffer;
     Multipart.completion := order |}.

(** What the schema keeps true of the Category collection: names are unique
    (the unique index) and present (the required path). *)
Definition categories_valid (coll : list Category.t) : Prop :=
  NoDup (Category.name <$> coll)
  ∧ Forall (fun c => required (Category.name c) = true) coll.

(** [pos] is the maximum position of the collection plus one, or [0] for the
    empty collection. *)
Definition next_position (coll : list Category.t) (pos : Z) : Prop :=
  (coll = [] ∧ pos = 0)
  ∨ (∃ m, m ∈ coll ∧ (∀ c, c ∈ coll → Category.position c ≤ Category.position m)
          ∧ pos = Category.position m + 1).


(** What the position update started for the [i]-th listed name does to one
    category. *)
Definition reposition (names : list string) (c : Category.t) (i : nat)
  : Category.t :=
  match names !! i with
  | Some n =>
      if Category.named (Some n) c then Category.set_position (Z.of_nat i) c
      else c
  | None => c
  end.

(** The aggregate of [Promise.all] between two settlements: [order] is what
    is still to settle, and exactly those slots are empty. *)
Definition waiting {A E : Type} (promises : list (Js.settled A E))
    (values : list (option A)) (order : list nat) : Prop :=
  NoDup order
  ∧ length values = length promises
  ∧ (∀ i, i ∈ order → (i < length promises)%nat ∧ values !! i = Some None)
  ∧ (∀ i a, (i < length promises)%nat → i ∉ order →
       promises !! i = Some (Js.Fulfilled a) → values !! i = Some (Some a)).

(** ** Sample requests and stores *)

Module Sample.

Definition tea : Body.t :=
  {| Body.name := Some "Tea"; Body.category := Some "Drinks";
     Body.description := None; Body.price := Some 10; Body.img := None;
     Body.images := None; Body.variants := None |}.

(** A stored product with a flat price and no variants. *)
Definition stored_tea : Product.t := Product.new 1%N tea.

Definition small : Js.value := Js.Obj [("size", Js.Str "S"); ("price", Js.Num 5)].
Definition large : Js.value := Js.Obj [("size", Js.Str "L"); ("price", Js.Num 8)].

(** A multipart form for a product with two variants. *)
Definition form : Form.t :=
  {| Form.name := Some "Tea"; Form.category := Some "Drinks";
     Form.description := None; Form.price := Some 12;
     Form.variants := Form.Text [small; large];
     Form.existingImages := Form.Absent |}.

Definition file0 : Multipart.File :=
  {| Multipart.fieldname := "variant_image_0"; Multipart.buffer := [] |}.
Definition file1 : Multipart.File :=
  {| Multipart.fieldname := "variant_image_1"; Multipart.buffer := [] |}.

Definition url (index : nat) : string :=
  match index with
  | 0%nat => "https://media.example/a.jpg"
  | 1%nat => "https://media.example/b.jpg"
  | _ => "https://media.example/c.jpg"
  end.

(** A media store where every upload succeeds; the uploads settle in the
    order [order]. *)
Definition cloud (order : list nat) : Multipart.Cloudinary :=
  {| Multipart.upload_stream index _ :=
       Js.Fulfilled {| Multipart.secure_url := url index |};
     Multipart.completion := order |}.

(** A media store where the second upload fails. *)
Definition failing_cloud (order : list nat) : Multipart.Cloudinary :=
  {| Multipart.upload_stream index _ :=
       match index with
       | 1%nat => Js.Rejected (Js.error "upload failed")
       | _ => Js.Fulfilled {| Multipart.secure_url := url index |}
       end;
     Multipart.completion := order |}.

(** A stored product with variants and no flat price, and a form that
    submits a flat price and no variants. *)
Definition stored_cup : Product.t :=
  Product.new 3%N
    {| Body.name := Some "Cup"; Body.category := Some "Drinks";
       Body.description := None; Body.price := None; Body.img := None;
       Body.images := None; Body.variants := Some [small; large] |}.

Definition flat_form : Form.t :=
  {| Form.name := Some "Cup"; Form.category := Some "Drinks";
     Form.description := None; Form.price := Some 12;
     Form.variants := Form.Absent; Form.existingImages := Form.Absent |}.

Definition snacks : Category.t := Category.make 10%N (Some "Snacks") 0.
Definition drinks : Category.t := Category.make 11%N (Some "Drinks") 4.

Definition db : DB :=
  {| products := [stored_tea]; categories := [snacks; drinks] |}.

End Sample.

(** ** Vocabulary of the further properties *)

(** The same media store with the uploads settling in another order. *)
Definition with_completion (order : list nat) (cloud : Multipart.Cloudinary)
  : Multipart.Cloudinary :=
  {| Multipart.upload_stream := Multipart.upload_stream cloud;
     Multipart.completion := order |}.




(** The category-aware server answering a list of requests one after the
    other, when it answers them all. *)
Fixpoint run (rs : list Catalog.request) (db : DB) : option DB :=
  match rs with
  | [] => Some db
  | r :: rs' =>
      match Catalog.handle r db with
      | Some (_, db') => run rs' db'
      | None => None
      end
  end.

Definition empty_db : DB := {| products := []; categories := [] |}.

(** Every product names a category that has a document. *)
Definition referenced (db : DB) : Prop :=
  ∀ p, p ∈ products db →
    ∃ c, c ∈ categories db ∧ Category.name c = Product.category p.


(** More sample data: files for the main image list and under a field name
    that no handler knows, and a form that keeps one stored image. *)
Module Fixture.

Definition thumbnail : Multipart.File :=
  {| Multipart.fieldname := "thumbnail"; Multipart.buffer := [] |}.


Definition coffee : Product.t :=
  Product.new 5%N
    {| Body.name := Some "Coffee"; Body.category := Some "Drinks";
       Body.description := None; Body.price := Some 7; Body.img := None;
       Body.images := None; Body.variants := None |}.

Definition crisps : Product.t :=
  Product.new 6%N
    {| Body.name := Some "Crisps"; Body.category := Some "Snacks";
       Body.description := None; Body.price := Some 2; Body.img := None;
       Body.images := None; Body.variants := None |}.

(** A store of the category-aware server with two products of one category
    and one of another. *)
Definition db : DB :=
  {| products := [Sample.stored_tea; coffee; crisps];
     categories := [Sample.snacks; Sample.drinks] |}.

End Fixture.

(** * Properties *)

(** ** The runtime functions on concrete inputs *)

Example parseInt_digit : Js.parseInt "0" = Some 0.
Proof. reflexivity. Qed.
Example parseInt_prefix : Js.parseInt " 12abc" = Some 12.
Proof. reflexivity. Qed.
Example parseInt_hex : Js.parseInt "0x1f" = Some 31.
Proof. reflexivity. Qed.
Example parseInt_nan : Js.parseInt "abc" = None.
Proof. reflexivity. Qed.
Example split_field : Js.split "_" "variant_image_1" = ["variant"; "image"; "1"].
Proof. reflexivity. Qed.

(** ** [Promise.all] *)

Section PromiseAllFacts.
Context {A E : Type}.
Implicit Types (promises : list (Js.settled A E)) (values : list (option A)).

Lemma omap_id_Some (l : list A) : omap id (Some <$> l) = l.
Proof. induction l as [|x l IH]; [done |]. cbn. f_equal. exact IH. Qed.

Lemma waiting_step promises values i a order :
  waiting promises values (i :: order) →
  promises !! i = Some (Js.Fulfilled a) →
  waiting promises (<[i := Some a]> values) order.
Proof.
  intros (Hnd & Hlen & Hin & Hout) Hi.
  apply NoDup_cons in Hnd as [Hni Hnd].
  repeat split; try done.
  - by rewrite length_insert.
  - by apply Hin; right.
  - rewrite list_lookup_insert_ne; [by apply Hin; right |].
    intros ->. done.
  - intros j b Hj Hnj Hb.
    destruct (decide (j = i)) as [-> | Hne].
    + rewrite list_lookup_insert_eq by lia. congruence.
    + rewrite list_lookup_insert_ne by done.
      apply Hout; [done | | done].
      rewrite not_elem_of_cons. done.
Qed.

Lemma all_from_fulfilled (vs : list A) values order :
  waiting (Js.Fulfilled (E := E) <$> vs) values order →
  order ≠ [] →
  Js.all_from (Js.Fulfilled (E := E) <$> vs) values (length order) order
  = Some (Js.Fulfilled vs).
Proof.
  revert values. induction order as [|i order IH]; intros values Hw Hne; [done |].
  pose proof Hw as (Hnd & Hlen & Hin & Hout).
  destruct (Hin i) as [Hi Hvi]; [left |].
  rewrite length_fmap in Hi.
  destruct (lookup_lt_is_Some_2 vs i Hi) as [a Ha].
  assert (Hp : (Js.Fulfilled (E := E) <$> vs) !! i = Some (Js.Fulfilled a))
    by (by rewrite list_lookup_fmap, Ha).
  pose proof (waiting_step _ _ _ _ _ Hw Hp) as Hw'.
  simpl. rewrite Hp, Hvi.
  destruct order as [|j order]; simpl.
  - f_equal. f_equal.
    destruct Hw' as (_ & Hlen' & _ & Hout').
    trans (omap id (Some <$> vs)); [| apply omap_id_Some]. f_equal.
    apply list_eq. intros k. rewrite list_lookup_fmap.
    destruct (vs !! k) as [b|] eqn:Hk; simpl.
    + apply Hout'.
      * rewrite length_fmap. by eapply lookup_lt_Some.
      * apply not_elem_of_nil.
      * by rewrite list_lookup_fmap, Hk.
    + apply lookup_ge_None. rewrite Hlen', length_fmap.
      by apply lookup_ge_None.
  - by apply (IH _ Hw').
Qed.

Lemma waiting_start promises order :
  order ≡ₚ seq 0 (length promises) →
  waiting promises (replicate (length promises) None) order.
Proof.
  intros Hp. repeat split.
  - rewrite Hp. apply NoDup_seq.
  - by rewrite length_replicate.
  - rewrite Hp in H. apply elem_of_seq in H. lia.
  - rewrite Hp in H. apply elem_of_seq in H.
    apply lookup_replicate_2. lia.
  - intros i a Hi Hni. exfalso. apply Hni. rewrite Hp.
    apply elem_of_seq. lia.
Qed.

Lemma all_nonempty promises order :
  promises ≠ [] →
  Js.all promises order
  = Js.all_from promises (replicate (length promises) None) (length promises) order.
Proof. by destruct promises. Qed.

(** When every input promise fulfils, the result fulfils with the values in
    the order of the inputs, whatever the order of settlement. *)
Lemma all_fulfilled (vs : list A) order :
  order ≡ₚ seq 0 (length vs) →
  Js.all (Js.Fulfilled (E := E) <$> vs) order = Some (Js.Fulfilled vs).
Proof.
  intros Hp. destruct (decide (vs = [])) as [-> | Hne]; [done |].
  rewrite all_nonempty by (by destruct vs).
  assert (Hlen : length (Js.Fulfilled (E := E) <$> vs) = length order)
    by (by rewrite Hp, length_seq, length_fmap).
  rewrite Hlen at 2. apply all_from_fulfilled.
  - apply waiting_start. by rewrite length_fmap.
  - intros ->. by destruct vs.
Qed.

Lemma all_from_rejected promises values order k e :
  waiting promises values order →
  k ∈ order → promises !! k = Some (Js.Rejected e) →
  ∃ e', Js.all_from promises values (length order) order = Some (Js.Rejected e').
Proof.
  revert values. induction order as [|i order IH]; intros values Hw Hk He.
  { by apply elem_of_nil in Hk. }
  pose proof Hw as (Hnd & Hlen & Hin & Hout).
  destruct (Hin i) as [Hi Hvi]; [left |].
  destruct (lookup_lt_is_Some_2 promises i Hi) as [[a | e'] Hp].
  - simpl. rewrite Hp, Hvi.
    assert (Hk' : k ∈ order).
    { apply elem_of_cons in Hk as [-> | Hk]; [congruence | done]. }
    destruct order as [|j order]; [by apply elem_of_nil in Hk' |].
    apply IH; [| done | done]. by eapply waiting_step.
  - simpl. rewrite Hp. by eexists.
Qed.

(** When an input promise rejects, the result rejects, whatever the order of
    settlement. *)
Lemma all_rejected promises order k e :
  order ≡ₚ seq 0 (length promises) →
  promises !! k = Some (Js.Rejected e) →
  ∃ e', Js.all promises order = Some (Js.Rejected e').
Proof.
  intros Hp He.
  assert (Hlen : length promises = length order) by (by rewrite Hp, length_seq).
  destruct (all_from_rejected promises (replicate (length promises) None)
              order k e) as [e' He']; [by apply waiting_start | | done |].
  { rewrite Hp. apply elem_of_seq. apply lookup_lt_Some in He. lia. }
  exists e'. rewrite all_nonempty by (by destruct promises).
  by rewrite Hlen at 2.
Qed.

End PromiseAllFacts.

(** ** Routing the uploaded URLs *)

Lemma uploadPromises_fulfilled cloud files :
  (∀ i f, files !! i = Some f →
     ∃ r, Multipart.upload_stream cloud i (Multipart.buffer f) = Js.Fulfilled r) →
  Multipart.uploadPromises cloud files = Js.Fulfilled <$> uploaded cloud files.
Proof.
  intros Hok. apply list_eq. intros i.
  unfold Multipart.uploadPromises, uploaded, Multipart.uploadToCloudinary.
  rewrite list_lookup_fmap, !list_lookup_imap.
  destruct (files !! i) as [f|] eqn:Hf; [simpl | done].
  destruct (Hok i f Hf) as [r ->]. done.
Qed.

Lemma uploads_join cloud files :
  uploads_succeed cloud files →
  Js.all (Multipart.uploadPromises cloud files) (Multipart.completion cloud)
  = Some (Js.Fulfilled (uploaded cloud files)).
Proof.
  intros [Hok Hp]. rewrite uploadPromises_fulfilled by done.
  apply all_fulfilled. unfold uploaded. by rewrite length_imap.
Qed.

Lemma forEach_from_route files results index state :
  Js.forEach_from (Multipart.route files) index results state
  = routed (drop index files) results state.
Proof.
  revert index state. induction results as [|r results IH]; intros index state.
  { unfold routed. by rewrite zip_with_nil_r. }
  simpl. rewrite IH. unfold Multipart.route, routed.
  destruct (files !! index) as [f|] eqn:Hf.
  - by rewrite (drop_S _ _ _ Hf).
  - apply lookup_ge_None in Hf.
    rewrite !drop_ge by lia. done.
Qed.

Lemma forEach_route files results state :
  Js.forEach (Multipart.route files) results state = routed files results state.
Proof. unfold Js.forEach. by rewrite forEach_from_route. Qed.













Lemma uploaded_length cloud files : length (uploaded cloud files) = length files.
Proof. apply length_imap. Qed.




Lemma uploadPromises_lookup cloud files i f :
  files !! i = Some f →
  Multipart.uploadPromises cloud files !! i
  = Some (Multipart.upload_stream cloud i (Multipart.buffer f)).
Proof.
  intros Hf. unfold Multipart.uploadPromises, Multipart.uploadToCloudinary.
  by rewrite list_lookup_imap, Hf.
Qed.

(** C5.  A create request one of whose uploads fails, the uploads settling
    in whatever order: the handler answers 500 and the Product collection is
    as it was. *)
Theorem create_fails_when_an_upload_fails cloud id body files coll j f e :
  files !! j = Some f →
  Multipart.upload_stream cloud j (Multipart.buffer f) = Js.Rejected e →
  Multipart.completion cloud ≡ₚ seq 0 (length files) →
  ∃ m, Multipart.post_products cloud id body files coll
       = Some (respond 500 (Message m), coll).
Proof.
  intros Hf He Hp. unfold Multipart.post_products.
  destruct (Form.parse_or_empty _) as [variants | ?]; [| by eexists].
  destruct (all_rejected (Multipart.uploadPromises cloud files)
              (Multipart.completion cloud) j e) as [e' ->].
  - unfold Multipart.uploadPromises. by rewrite length_imap.
  - by rewrite (uploadPromises_lookup _ _ _ f), He.
  - by eexists.
Qed.

(** ** A file that addresses no entry *)


Lemma routed_app files1 files2 results1 results2 state :
  length files1 = length results1 →
  routed (files1 ++ files2) (results1 ++ results2) state
  = routed files2 results2 (routed files1 results1 state).
Proof. intros Hlen. unfold routed. by rewrite zip_with_app, foldl_app. Qed.

Lemma routed_cons f files r results state :
  routed (f :: files) (r :: results) state
  = routed files results
      (Multipart.route_field (Multipart.fieldname f) state r).
Proof. reflexivity. Qed.


Lemma uploaded_without cloud files j order :
  uploaded (without_upload j order cloud) (delete j files)
  = delete j (uploaded cloud files).
Proof.
  apply list_eq. intros i. unfold uploaded, without_upload. simpl.
  rewrite list_lookup_imap, !list_lookup_delete, list_lookup_imap.
  destruct (Nat.ltb_spec i j); case_decide; try lia; done.
Qed.

Lemma uploads_succeed_without cloud files j order :
  is_Some (files !! j) →
  uploads_succeed cloud files →
  order ≡ₚ seq 0 (length files - 1) →
  uploads_succeed (without_upload j order cloud) (delete j files).
Proof.
  intros Hj [Hok _] Hp. split.
  - intros i f. rewrite list_lookup_delete. simpl.
    destruct (Nat.ltb_spec i j); case_decide; try lia; apply Hok.
  - simpl. by rewrite length_delete.
Qed.





(** ** Flat price or variants *)

(** A product saved by the create handler has no flat price when it has
    variants, and the submitted price and no variants otherwise. *)
Lemma create_price_only_without_variants cloud id body files coll p coll' :
  Multipart.post_products cloud id body files coll
  = Some (respond 201 (ProductDoc p), coll') →
  coll' = coll ++ [p]
  ∧ (Product.variants p ≠ [] → Product.price p = None)
  ∧ (Product.variants p = [] → Product.price p = Form.price body).
Proof.
  unfold Multipart.post_products.
  destruct (Form.parse_or_empty _) as [variants|]; [| done].
  destruct (Js.all _ _) as [[results | ?]|]; [| done | done].
  destruct (Js.forEach _ _ _) as [main vs].
  unfold Product.save.
  destruct (Product.validate _); [| done].
  intros [= <- <-]. split; [done |].
  unfold Multipart.product_data. simpl.
  destruct vs as [|v vs]; simpl; by split.
Qed.

(** C9, where the code departs from it.  The update handler leaves out of
    the update the key it computes as [undefined], so the stored value of
    that key stays: updating a flat-priced product with a non-empty variants
    list yields a document that has the variants and still the old flat
    price, and updating a product that has variants with a flat price and no
    variants yields a document that has the price and still the old
    variants. *)
Theorem update_keeps_stale_price_or_variants :
  (∃ p, Multipart.put_product (Sample.cloud []) 1%N Sample.form []
          [Sample.stored_tea]
        = Some (respond 200 (ProductDoc p), [p])
        ∧ Product.variants p = [Sample.small; Sample.large]
        ∧ Product.price p = Some 10)
  ∧ (∃ p, Multipart.put_product (Sample.cloud []) 3%N Sample.flat_form []
            [Sample.stored_cup]
          = Some (respond 200 (ProductDoc p), [p])
          ∧ Product.variants p = [Sample.small; Sample.large]
          ∧ Product.price p = Some 12).
Proof. split; eexists; repeat split. Qed.

(** ** The plain server *)

Lemma findByIdAndDelete_missing id coll :
  (∀ p, p ∈ coll → Product._id p ≠ id) → Product.findByIdAndDelete id coll = None.
Proof.
  induction coll as [|p coll IH]; intros Hno; [done |]. simpl.
  destruct (N.eqb_spec (Product._id p) id) as [Heq | _].
  - exfalso. by apply (Hno p); [left |].
  - rewrite IH; [done |]. intros q Hq. apply Hno. by right.
Qed.

(** C6.  Deleting by an identifier that no product document has: the answer
    is 404, and the Product collection (for the category-aware server, the
    Category collection too) is as it was. *)
Theorem delete_missing_product_is_404 id coll cats :
  (∀ p, p ∈ coll → Product._id p ≠ id) →
  Server.delete_product id coll = (respond 404 (Message "Product not found"), coll)
  ∧ Catalog.delete_product id {| products := coll; categories := cats |}
    = (respond 404 (Message "Product not found"),
       {| products := coll; categories := cats |}).
Proof.
  intros Hno. unfold Server.delete_product, Catalog.delete_product. simpl.
  by rewrite findByIdAndDelete_missing.
Qed.



(** ** The category-aware server *)

#[local] Instance descending_trans : Transitive Category.descending.
Proof. unfold Category.descending. intros a b c. lia. Qed.

#[local] Instance descending_total : Total Category.descending.
Proof. unfold Category.descending. intros a b. lia. Qed.

(** The first document in descending order of position has the greatest
    position. *)
Lemma highest_position coll m :
  Category.findOne_sort_position_desc coll = Some m →
  m ∈ coll ∧ ∀ c, c ∈ coll → Category.position c ≤ Category.position m.
Proof.
  unfold Category.findOne_sort_position_desc. intros Hm.
  pose proof (merge_sort_Permutation Category.descending coll) as Hperm.
  pose proof (StronglySorted_merge_sort Category.descending coll) as Hsort.
  destruct (merge_sort Category.descending coll) as [|m' sorted]; [done |].
  simplify_eq/=. split.
  - rewrite <- Hperm. by left.
  - intros c Hc. rewrite <- Hperm in Hc.
    apply StronglySorted_inv in Hsort as [_ Hall].
    apply elem_of_cons in Hc as [-> | Hc]; [lia |].
    rewrite Forall_forall in Hall. by apply Hall.
Qed.

Lemma highest_position_none coll :
  Category.findOne_sort_position_desc coll = None → coll = [].
Proof.
  unfold Category.findOne_sort_position_desc. intros Hm.
  pose proof (merge_sort_Permutation Category.descending coll) as Hperm.
  destruct (merge_sort Category.descending coll); [| done].
  by apply Permutation_nil_l in Hperm.
Qed.

Lemma findOne_none n coll :
  (∀ c, c ∈ coll → Category.name c ≠ n) → Category.findOne n coll = None.
Proof.
  unfold Category.findOne, Category.named. intros Hno.
  induction coll as [|c coll IH]; [done |]. simpl.
  rewrite bool_decide_eq_false_2 by (apply Hno; by left).
  apply IH. intros c' Hc'. apply Hno. by right.
Qed.

Lemma findOne_some n coll c :
  c ∈ coll → Category.name c = n →
  ∃ c', Category.findOne n coll = Some c' ∧ c' ∈ coll ∧ Category.name c' = n.
Proof.
  unfold Category.findOne, Category.named. intros Hc Hn.
  induction coll as [|d coll IH]; [by apply elem_of_nil in Hc |]. simpl.
  destruct (decide (Category.name d = n)) as [Hd | Hd].
  - rewrite bool_decide_eq_true_2 by done. exists d. split; [done |]. split; [by left | done].
  - rewrite bool_decide_eq_false_2 by done.
    apply elem_of_cons in Hc as [-> | Hc]; [done |].
    destruct (IH Hc) as (c' & ? & ? & ?). exists c'. split; [done |]. split; [by right | done].
Qed.

Lemma no_duplicate_name n coll :
  (∀ c, c ∈ coll → Category.name c ≠ n) →
  existsb (Category.named n) coll = false.
Proof.
  unfold Category.named. intros Hno.
  induction coll as [|c coll IH]; [done |]. simpl.
  rewrite bool_decide_eq_false_2 by (apply Hno; by left).
  apply IH. intros c' Hc'. apply Hno. by right.
Qed.

Lemma required_nonempty n : n ≠ "" → required (Some n) = true.
Proof.
  intros Hn. simpl. destruct (String.eqb_spec n ""); [done | done].
Qed.

(** C2.  Find-or-create with a name that no category has inserts a category
    of that name whose position is the maximum position plus one, or 0 in an
    empty collection; with a name that a category has it inserts nothing.
    Creating a product of a category that does not exist yet inserts that
    same category. *)
Theorem find_or_create_category id n coll :
  n ≠ "" →
  ((∀ c, c ∈ coll → Category.name c ≠ Some n) →
   ∃ pos,
     Catalog.findOrCreateCategory id (Some n) coll
     = Ok (Category.make id (Some n) pos, coll ++ [Category.make id (Some n) pos])
     ∧ next_position coll pos
     ∧ ∀ pid body prods, Body.category body = Some n →
         categories (Catalog.post_products id pid body
                       {| products := prods; categories := coll |}).2
         = coll ++ [Category.make id (Some n) pos])
  ∧ (∀ c, c ∈ coll → Category.name c = Some n →
     ∃ c', Catalog.findOrCreateCategory id (Some n) coll = Ok (c', coll)
           ∧ c' ∈ coll ∧ Category.name c' = Some n).
Proof.
  intros Hn. split.
  - intros Hno.
    set (pos := match Category.findOne_sort_position_desc coll with
                | Some c => Category.position c + 1
                | None => 0
                end).
    assert (Hcreate : Catalog.findOrCreateCategory id (Some n) coll
      = Ok (Category.make id (Some n) pos, coll ++ [Category.make id (Some n) pos])).
    { unfold Catalog.findOrCreateCategory. rewrite findOne_none by done.
      unfold Category.save, Category.validate, Category.new. simpl Category.name.
      rewrite required_nonempty by done. by rewrite no_duplicate_name. }
    exists pos. split; [done |]. split.
    + subst pos. destruct (Category.findOne_sort_position_desc coll) as [m|] eqn:Hm.
      * right. exists m. apply highest_position in Hm as [? ?]. done.
      * left. by apply highest_position_none in Hm.
    + intros pid body prods Hcat. unfold Catalog.post_products. simpl.
      rewrite Hcat, Hcreate. by destruct (Product.save _ _).
  - intros c Hc Hname. unfold Catalog.findOrCreateCategory.
    destruct (findOne_some (Some n) coll c Hc Hname) as (c' & -> & ? & ?).
    by exists c'.
Qed.

Lemma findByIdAndDelete_found id coll :
  (∃ q, q ∈ coll ∧ Product._id q = id) →
  ∃ p l1 l2, coll = l1 ++ p :: l2 ∧ Product._id p = id
             ∧ Product.findByIdAndDelete id coll = Some (p, l1 ++ l2).
Proof.
  intros (q & Hq & Hid). induction coll as [|p coll IH]; [by apply elem_of_nil in Hq |].
  simpl. destruct (N.eqb_spec (Product._id p) id) as [Heq | Hne].
  - by exists p, [], coll.
  - apply elem_of_cons in Hq as [-> | Hq]; [done |].
    destruct (IH Hq) as (p' & l1 & l2 & -> & ? & ->).
    by exists p', (p :: l1), l2.
Qed.

Lemma countDocuments_zero c coll :
  (∀ q, q ∈ coll → Product.category q ≠ c) → Product.countDocuments c coll = 0%nat.
Proof.
  unfold Product.countDocuments, Product.in_category. intros Hno.
  induction coll as [|p coll IH]; [done |]. simpl.
  rewrite bool_decide_eq_false_2 by (apply Hno; by left).
  apply IH. intros q Hq. apply Hno. by right.
Qed.

Lemma countDocuments_pos c coll q :
  q ∈ coll → Product.category q = c → Product.countDocuments c coll ≠ 0%nat.
Proof.
  unfold Product.countDocuments, Product.in_category. intros Hq Hc.
  induction coll as [|p coll IH]; [by apply elem_of_nil in Hq |]. simpl.
  destruct (decide (Product.category p = c)) as [Hp | Hp].
  - by rewrite bool_decide_eq_true_2.
  - rewrite bool_decide_eq_false_2 by done.
    apply elem_of_cons in Hq as [-> | Hq]; [done | by apply IH].
Qed.

Lemma filter_all {A : Type} (P : A → Prop) `{∀ x, Decision (P x)} (l : list A) :
  (∀ x, x ∈ l → P x) → filter P l = l.
Proof.
  induction l as [|x l IH]; intros Hall; [done |].
  rewrite filter_cons_True by (apply Hall; by left).
  f_equal. apply IH. intros y Hy. apply Hall. by right.
Qed.

(** Under the unique index, deleting one document of a name leaves no
    document of that name and keeps all others. *)
Lemma deleteOne_filter n coll :
  NoDup (Category.name <$> coll) →
  Category.deleteOne n coll = filter (fun c => Category.name c ≠ n) coll.
Proof.
  induction coll as [|c coll IH]; [done |].
  rewrite fmap_cons, NoDup_cons. intros [Hc Hnd]. simpl.
  unfold Category.named. destruct (decide (Category.name c = n)) as [Hn | Hn].
  - rewrite bool_decide_eq_true_2 by done.
    rewrite filter_cons_False by (by intros ?).
    symmetry. apply filter_all. intros d Hd Hdn. apply Hc.
    rewrite Hn, <- Hdn. by apply list_elem_of_fmap_2.
  - rewrite bool_decide_eq_false_2 by done.
    rewrite filter_cons_True by done. f_equal. by apply IH.
Qed.

(** C3.  Deleting an existing product removes it; the category of the
    deleted product is deleted when no remaining product has that category,
    and the Category collection is left as it is when one does. *)
Theorem delete_product_cascades id db :
  NoDup (Category.name <$> categories db) →
  (∃ q, q ∈ products db ∧ Product._id q = id) →
  ∃ p l1 l2 db',
    products db = l1 ++ p :: l2 ∧ Product._id p = id
    ∧ Catalog.delete_product id db
      = (respond 200 (Message "Product deleted successfully"), db')
    ∧ products db' = l1 ++ l2
    ∧ ((∀ q, q ∈ l1 ++ l2 → Product.category q ≠ Product.category p) →
       categories db'
       = filter (fun c => Category.name c ≠ Product.category p) (categories db))
    ∧ ((∃ q, q ∈ l1 ++ l2 ∧ Product.category q = Product.category p) →
       categories db' = categories db).
Proof.
  intros Hnd Hex.
  destruct (findByIdAndDelete_found id (products db) Hex)
    as (p & l1 & l2 & Hsplit & Hid & Hdel).
  exists p, l1, l2. eexists. split; [done |]. split; [done |].
  unfold Catalog.delete_product. rewrite Hdel. split; [reflexivity |].
  simpl. split; [done |]. split.
  - intros Hno. rewrite countDocuments_zero by done. simpl.
    by apply deleteOne_filter.
  - intros (q & Hq & Hcat).
    destruct (Nat.eqb_spec (Product.countDocuments (Product.category p) (l1 ++ l2)) 0)
      as [Hz | _]; [| done].
    by apply (countDocuments_pos _ _ q) in Hz.
Qed.


(** Under the unique index an update of one document is an update of every
    document of that name. *)
Lemma updateOne_fmap n f coll :
  NoDup (Category.name <$> coll) →
  Category.updateOne n f coll
  = (fun c => if Category.named n c then f c else c) <$> coll.
Proof.
  induction coll as [|c coll IH]; [done |].
  rewrite fmap_cons, NoDup_cons. intros [Hc Hnd]. simpl.
  destruct (Category.named n c) eqn:Hn.
  - f_equal. symmetry. etrans; [| apply list_fmap_id].
    apply list_fmap_ext. intros i d Hd. simpl.
    unfold Category.named in *. apply bool_decide_eq_true in Hn.
    rewrite bool_decide_eq_false_2; [done |].
    intros Hdn. apply Hc. rewrite Hn, <- Hdn.
    apply list_elem_of_fmap_2. by eapply list_elem_of_lookup_2.
  - f_equal. by apply IH.
Qed.

Lemma reposition_keeps names c i :
  Category._id (reposition names c i) = Category._id c
  ∧ Category.name (reposition names c i) = Category.name c.
Proof. unfold reposition. by repeat case_match. Qed.

Lemma foldl_reposition_keeps names order c :
  Category._id (foldl (reposition names) c order) = Category._id c
  ∧ Category.name (foldl (reposition names) c order) = Category.name c.
Proof.
  revert c. induction order as [|i order IH]; intros c; [done |]. simpl.
  destruct (IH (reposition names c i)) as [-> ->]. apply reposition_keeps.
Qed.

Lemma execute_fmap names order coll :
  NoDup (Category.name <$> coll) →
  Catalog.execute (Catalog.order_updates names) order coll
  = (fun c => foldl (reposition names) c order) <$> coll.
Proof.
  revert coll. induction order as [|i order IH]; intros coll Hnd.
  { simpl. by rewrite list_fmap_id. }
  simpl.
  assert (Hstep :
    match Catalog.order_updates names !! i with
    | Some update => update coll
    | None => coll
    end = (fun c => reposition names c i) <$> coll).
  { unfold Catalog.order_updates, reposition. rewrite list_lookup_imap.
    destruct (names !! i) as [n|]; simpl.
    - by apply updateOne_fmap.
    - by rewrite list_fmap_id. }
  rewrite Hstep, IH.
  - by rewrite <- list_fmap_compose.
  - rewrite <- list_fmap_compose.
    erewrite list_fmap_ext; [done |]. intros j c _. simpl.
    apply reposition_keeps.
Qed.

(** The position of a category after the updates: untouched, or the index
    of an executed update of its name. *)
Lemma foldl_reposition_position names order c :
  Category.position (foldl (reposition names) c order) = Category.position c
  ∨ ∃ i n, i ∈ order ∧ names !! i = Some n ∧ Category.name c = Some n
           ∧ Category.position (foldl (reposition names) c order) = Z.of_nat i.
Proof.
  revert c. induction order as [|i order IH]; intros c; [by left |]. simpl.
  destruct (IH (reposition names c i)) as [Hsame | (i' & n & Hi' & Hn & Hc & Hpos)].
  - rewrite Hsame. unfold reposition.
    destruct (names !! i) as [n|] eqn:Hn; [| by left].
    unfold Category.named. case_bool_decide as Hc; [| by left].
    right. exists i, n. split; [by left | done].
  - right. exists i', n. split; [by right |].
    destruct (reposition_keeps names c i) as [_ Hname]. by rewrite <- Hname.
Qed.

Lemma foldl_reposition_listed names order c i n :
  i ∈ order → names !! i = Some n → Category.name c = Some n →
  ∃ i', names !! i' = Some n
        ∧ Category.position (foldl (reposition names) c order) = Z.of_nat i'.
Proof.
  revert c. induction order as [|j order IH]; intros c Hi Hn Hc.
  { by apply elem_of_nil in Hi. }
  simpl. destruct (reposition_keeps names c j) as [_ Hname].
  destruct (decide (i ∈ order)) as [Hin | Hnin].
  { apply IH; [done | done | by rewrite Hname]. }
  apply elem_of_cons in Hi as [<- | Hi]; [| done].
  destruct (foldl_reposition_position names order (reposition names c i))
    as [Hsame | (i' & n' & _ & Hn' & Hc' & Hpos)].
  - exists i. split; [done |]. rewrite Hsame. unfold reposition, Category.named.
    rewrite Hn. by rewrite bool_decide_eq_true_2.
  - exists i'. split; [| done]. rewrite Hname in Hc'. congruence.
Qed.

Lemma foldl_reposition_unlisted names order c :
  (∀ n, n ∈ names → Category.name c ≠ Some n) →
  Category.position (foldl (reposition names) c order) = Category.position c.
Proof.
  intros Hno.
  destruct (foldl_reposition_position names order c)
    as [Hsame | (i & n & _ & Hn & Hc & _)]; [done |].
  exfalso. apply (Hno n); [| done]. by eapply list_elem_of_lookup_2.
Qed.

(** C8.  A reorder request answers 200 whatever names it lists; the store
    executing the updates in whatever order, every category whose name is
    listed gets as position an index at which the list has its name, and
    every other category keeps its position. *)
Theorem reorder_sets_positions names order db :
  NoDup (Category.name <$> categories db) →
  order ≡ₚ seq 0 (length names) →
  ∃ cats',
    Catalog.put_categories_order (Some names) order db
    = Some (respond 200 (Message "Category order updated successfully."),
            {| products := products db; categories := cats' |})
    ∧ length cats' = length (categories db)
    ∧ ∀ k c, categories db !! k = Some c →
        ∃ c', cats' !! k = Some c'
          ∧ Category._id c' = Category._id c
          ∧ Category.name c' = Category.name c
          ∧ (∀ n, Category.name c = Some n → n ∈ names →
               ∃ i, names !! i = Some n ∧ Category.position c' = Z.of_nat i)
          ∧ (NoDup names → ∀ i n, Category.name c = Some n → names !! i = Some n →
               Category.position c' = Z.of_nat i)
          ∧ ((∀ n, n ∈ names → Category.name c ≠ Some n) →
               Category.position c' = Category.position c).
Proof.
  intros Hnd Hp. eexists. split; [| split].
  - unfold Catalog.put_categories_order.
    assert (Hall : Js.all
        (List.map (fun _ => Js.Fulfilled (E := Js.Error) ())
                  (Catalog.order_updates names)) order
      = Some (Js.Fulfilled ((fun _ => ()) <$> Catalog.order_updates names))).
    { rewrite <- all_fulfilled with (order := order).
      - f_equal. by rewrite <- list_fmap_compose.
      - rewrite length_fmap. unfold Catalog.order_updates. by rewrite length_imap. }
    rewrite Hall. by rewrite execute_fmap.
  - by rewrite length_fmap.
  - intros k c Hk. eexists. rewrite list_lookup_fmap, Hk. simpl.
    split; [done |].
    destruct (foldl_reposition_keeps names order c) as [Hid Hname].
    assert (Hlisted : ∀ i n, Category.name c = Some n → names !! i = Some n →
      ∃ i', names !! i' = Some n
            ∧ Category.position (foldl (reposition names) c order) = Z.of_nat i').
    { intros i n Hc Hi.
      apply (foldl_reposition_listed names order c i n); [| done | done].
      rewrite Hp. apply elem_of_seq. apply lookup_lt_Some in Hi. lia. }
    split; [done |]. split; [done |]. split; [| split].
    + intros n Hc Hn. apply list_elem_of_lookup in Hn as [i Hi]. by eapply Hlisted.
    + intros Hnames i n Hc Hi.
      destruct (Hlisted i n Hc Hi) as (i' & Hi' & ->).
      f_equal. by eapply NoDup_lookup.
    + apply foldl_reposition_unlisted.
Qed.

(** ** What the schema keeps true of the Category collection *)

Lemma findOne_none_inv n coll :
  Category.findOne n coll = None → ∀ c, c ∈ coll → Category.name c ≠ n.
Proof.
  unfold Category.findOne, Category.named.
  induction coll as [|d coll IH]; intros Hnone c Hc; [by apply elem_of_nil in Hc |].
  simpl in Hnone. case_bool_decide as Hd; [done |].
  apply elem_of_cons in Hc as [-> | Hc]; [done | by apply IH].
Qed.

Lemma existsb_named_false n coll :
  existsb (Category.named n) coll = false → n ∉ Category.name <$> coll.
Proof.
  unfold Category.named. induction coll as [|d coll IH]; simpl; intros Hex.
  - apply not_elem_of_nil.
  - apply orb_false_iff in Hex as [Hd Hex]. apply bool_decide_eq_false in Hd.
    rewrite not_elem_of_cons. split; [done | by apply IH].
Qed.

Lemma save_category_valid c coll coll' :
  categories_valid coll → Category.save c coll = Ok coll' → categories_valid coll'.
Proof.
  intros [Hnd Hreq]. unfold Category.save, Category.validate.
  destruct (required (Category.name c)) eqn:Hc; [| done].
  destruct (existsb _ coll) eqn:Hex; [done |]. intros [= <-]. split.
  - rewrite fmap_app. apply NoDup_app. split; [done |]. split.
    + intros n Hn Hn'. apply list_elem_of_singleton in Hn'. subst n.
      by apply existsb_named_false in Hex.
    + apply NoDup_singleton.
  - apply Forall_app. split; [done |]. by constructor.
Qed.

Lemma findOrCreateCategory_valid id n coll c coll' :
  categories_valid coll →
  Catalog.findOrCreateCategory id n coll = Ok (c, coll') →
  categories_valid coll'.
Proof.
  intros Hvalid. unfold Catalog.findOrCreateCategory.
  destruct (Category.findOne n coll); [by intros [= _ <-] |].
  destruct (Category.save _ coll) as [coll''|] eqn:Hsave; [| done].
  intros [= _ <-]. by eapply save_category_valid.
Qed.

Lemma deleteOne_valid n coll :
  categories_valid coll → categories_valid (Category.deleteOne n coll).
Proof.
  intros [Hnd Hreq]. rewrite deleteOne_filter by done. split.
  - eapply sublist_NoDup; [done |]. apply fmap_sublist, sublist_filter.
  - rewrite Forall_forall in Hreq. apply Forall_forall.
    intros c [_ Hc]%list_elem_of_filter. by apply Hreq.
Qed.

Lemma renamed_names old new coll n :
  n ∈ Category.name <$> Category.updateOne old (Category.set_name new) coll →
  n = new ∨ n ∈ Category.name <$> coll.
Proof.
  induction coll as [|c coll IH]; simpl; [by right |].
  destruct (Category.named old c); rewrite !fmap_cons, !elem_of_cons; simpl.
  - intros [-> | Hn]; [by left | by right; right].
  - intros [-> | Hn]; [by right; left |].
    destruct (IH Hn); [by left | by right; right].
Qed.

Lemma rename_valid old new coll :
  required new = true →
  (∀ c, c ∈ coll → Category.name c ≠ new) →
  categories_valid coll →
  categories_valid (Category.updateOne old (Category.set_name new) coll).
Proof.
  intros Hnew Hfree [Hnd Hreq]. split.
  - induction coll as [|c coll IH]; [done |].
    rewrite fmap_cons, NoDup_cons in Hnd. destruct Hnd as [Hc Hnd].
    apply Forall_cons in Hreq as [_ Hreq]. simpl.
    destruct (Category.named old c); rewrite fmap_cons, NoDup_cons; simpl.
    + split; [| done]. intros Hin. apply list_elem_of_fmap in Hin as (d & Hd & Hin).
      apply (Hfree d); [by right | done].
    + split.
      * intros Hin. apply renamed_names in Hin as [Hin | Hin]; [| done].
        apply (Hfree c); [by left | done].
      * apply IH; [| done | done]. intros d Hd. apply Hfree. by right.
  - induction Hreq as [|c coll Hc Hreq IH]; [done |]. simpl.
    destruct (Category.named old c); constructor; try done.
    apply IH.
    + intros d Hd. apply Hfree. by right.
    + rewrite fmap_cons, NoDup_cons in Hnd. by destruct Hnd.
Qed.

Lemma execute_valid names order coll :
  categories_valid coll →
  categories_valid (Catalog.execute (Catalog.order_updates names) order coll).
Proof.
  intros [Hnd Hreq]. rewrite execute_fmap by done. split.
  - rewrite <- list_fmap_compose.
    erewrite list_fmap_ext; [done |]. intros i c _. simpl.
    apply foldl_reposition_keeps.
  - rewrite Forall_fmap. eapply Forall_impl; [done |]. intros c Hc. simpl.
    by destruct (foldl_reposition_keeps names order c) as [_ ->].
Qed.

Lemma empty_valid : categories_valid [].
Proof. split; constructor. Qed.

(** Every request leaves the names of the Category collection unique and
    present. *)
Lemma handle_valid r db resp db' :
  categories_valid (categories db) →
  Catalog.handle r db = Some (resp, db') →
  categories_valid (categories db').
Proof.
  intros Hvalid. destruct r; simpl.
  - by intros [= _ <-].
  - by intros [= _ <-].
  - unfold Catalog.post_products.
    destruct (Catalog.findOrCreateCategory _ _ _) as [[c coll']|] eqn:Hfind.
    + apply findOrCreateCategory_valid in Hfind; [| done].
      by destruct (Product.save _ _); intros [= _ <-].
    + by intros [= _ <-].
  - unfold Catalog.put_product.
    destruct (Catalog.findOrCreateCategory _ _ _) as [[c coll']|] eqn:Hfind.
    + apply findOrCreateCategory_valid in Hfind; [| done].
      by destruct (Product.findByIdAndUpdate _ _ _) as [[? ?]|]; intros [= _ <-].
    + by intros [= _ <-].
  - unfold Catalog.put_categories_order.
    destruct orderedCategories as [names|]; [| by intros [= _ <-]].
    destruct (Js.all _ _) as [[? | ?]|]; [| | done];
      intros [= _ <-]; simpl; by apply execute_valid.
  - unfold Catalog.put_category_name.
    destruct (Catalog.missing newName) eqn:Hmiss; [by intros [= _ <-] |].
    destruct (Category.findOne newName _) eqn:Hfind; [by intros [= _ <-] |].
    intros [= _ <-]. simpl. apply rename_valid; [| | done].
    + destruct newName as [n|]; [| done]. simpl in *. by rewrite Hmiss.
    + by apply findOne_none_inv.
  - unfold Catalog.delete_product.
    destruct (Product.findByIdAndDelete _ _) as [[p coll']|]; [| by intros [= _ <-]].
    intros [= _ <-]. simpl. destruct (_ =? _)%nat; [| done].
    by apply deleteOne_valid.
  - unfold Catalog.delete_category.
    destruct (Category.findOne _ _); [| by intros [= _ <-]].
    intros [= _ <-]. simpl. by apply deleteOne_valid.
Qed.

(** ** Inputs at the edge of the schema *)

(** An entry of the variants array that is not truthy is skipped like a
    missing one, and the image of a truthy entry that is not a document
    cannot be set. *)
Example null_or_scalar_entry_gets_no_image :
  routed [Sample.file0; Sample.file1]
    (uploaded (Sample.cloud [0; 1]%nat) [Sample.file0; Sample.file1])
    ([], [Js.Null; Js.Num 5])
  = ([], [Js.Null; Js.Num 5]).
Proof. reflexivity. Qed.

(** The empty string is no category name: the required path refuses it. *)
Example empty_category_name_is_refused :
  Catalog.findOrCreateCategory 12%N (Some "") []
  = Throw (Js.error "Category validation failed: name: Path `name` is required.").
Proof. reflexivity. Qed.

(** A second file for the same slot replaces the URL of the first. *)
Example later_file_for_a_slot_wins :
  (routed [Sample.file0; Sample.file0]
     (uploaded (Sample.cloud [0; 1]%nat) [Sample.file0; Sample.file0])
     ([], [Sample.small])).2
  = [Js.Obj [("size", Js.Str "S"); ("price", Js.Num 5);
             ("image", Js.Str "https://media.example/b.jpg")]].
Proof. reflexivity. Qed.

(** ** The properties on the sample data *)


Lemma create_fails_when_an_upload_fails_witness :
  ∃ m, Multipart.post_products (Sample.failing_cloud [0; 1]%nat) 2%N Sample.form
         [Sample.file0; Sample.file1] [Sample.stored_tea]
       = Some (respond 500 (Message m), [Sample.stored_tea]).
Proof.
  apply (create_fails_when_an_upload_fails (Sample.failing_cloud [0; 1]%nat) 2%N
           Sample.form [Sample.file0; Sample.file1] [Sample.stored_tea]
           1 Sample.file1 (Js.error "upload failed")); reflexivity.
Defined.


Lemma delete_missing_product_is_404_witness :
  Server.delete_product 99%N [Sample.stored_tea]
  = (respond 404 (Message "Product not found"), [Sample.stored_tea])
  ∧ Catalog.delete_product 99%N Sample.db
    = (respond 404 (Message "Product not found"), Sample.db).
Proof.
  apply (delete_missing_product_is_404 99%N [Sample.stored_tea]
           [Sample.snacks; Sample.drinks]).
  intros p Hp. apply list_elem_of_singleton in Hp as ->. done.
Defined.


Lemma find_or_create_category_witness :
  (∃ pos,
     Catalog.findOrCreateCategory 12%N (Some "Sweets") [Sample.snacks; Sample.drinks]
     = Ok (Category.make 12%N (Some "Sweets") pos,
           [Sample.snacks; Sample.drinks] ++ [Category.make 12%N (Some "Sweets") pos])
     ∧ next_position [Sample.snacks; Sample.drinks] pos)
  ∧ (∃ c', Catalog.findOrCreateCategory 12%N (Some "Drinks")
             [Sample.snacks; Sample.drinks]
           = Ok (c', [Sample.snacks; Sample.drinks])).
Proof.
  split.
  - destruct (find_or_create_category 12%N "Sweets" [Sample.snacks; Sample.drinks])
      as [Hnew _]; [done |].
    destruct Hnew as (pos & Hcreate & Hpos & _).
    + intros c Hc. apply elem_of_cons in Hc as [-> | Hc]; [done |].
      apply list_elem_of_singleton in Hc as ->. done.
    + by exists pos.
  - destruct (find_or_create_category 12%N "Drinks" [Sample.snacks; Sample.drinks])
      as [_ Hold]; [done |].
    destruct (Hold Sample.drinks) as (c' & Hfound & _); [by right; left | done |].
    by exists c'.
Defined.

Lemma delete_product_cascades_witness :
  ∃ p l1 l2 db',
    products Sample.db = l1 ++ p :: l2 ∧ Product._id p = 1%N
    ∧ Catalog.delete_product 1%N Sample.db
      = (respond 200 (Message "Product deleted successfully"), db')
    ∧ products db' = l1 ++ l2
    ∧ ((∀ q, q ∈ l1 ++ l2 → Product.category q ≠ Product.category p) →
       categories db'
       = filter (fun c => Category.name c ≠ Product.category p)
           (categories Sample.db))
    ∧ ((∃ q, q ∈ l1 ++ l2 ∧ Product.category q = Product.category p) →
       categories db' = categories Sample.db).
Proof.
  apply (delete_product_cascades 1%N Sample.db).
  - simpl. apply NoDup_cons. split; [| apply NoDup_singleton].
    intros Hin. by apply list_elem_of_singleton in Hin.
  - exists Sample.stored_tea. split; [by left | reflexivity].
Defined.


Lemma reorder_sets_positions_witness :
  ∃ cats',
    Catalog.put_categories_order (Some ["Drinks"; "Absent"; "Snacks"])
      [2; 0; 1]%nat Sample.db
    = Some (respond 200 (Message "Category order updated successfully."),
            {| products := products Sample.db; categories := cats' |})
    ∧ length cats' = length (categories Sample.db)
    ∧ ∀ k c, categories Sample.db !! k = Some c →
        ∃ c', cats' !! k = Some c'
          ∧ Category._id c' = Category._id c
          ∧ Category.name c' = Category.name c
          ∧ (∀ n, Category.name c = Some n → n ∈ ["Drinks"; "Absent"; "Snacks"] →
               ∃ i, ["Drinks"; "Absent"; "Snacks"] !! i = Some n
                    ∧ Category.position c' = Z.of_nat i)
          ∧ (NoDup ["Drinks"; "Absent"; "Snacks"] →
             ∀ i n, Category.name c = Some n →
               ["Drinks"; "Absent"; "Snacks"] !! i = Some n →
               Category.position c' = Z.of_nat i)
          ∧ ((∀ n, n ∈ ["Drinks"; "Absent"; "Snacks"] → Category.name c ≠ Some n) →
               Category.position c' = Category.position c).
Proof.
  apply (reorder_sets_positions ["Drinks"; "Absent"; "Snacks"] [2; 0; 1]%nat
           Sample.db).
  - simpl. apply NoDup_cons. split; [| apply NoDup_singleton].
    intros Hin. by apply list_elem_of_singleton in Hin.
  - simpl. etrans; [apply Permutation_swap |]. apply perm_skip, Permutation_swap.
Defined.

(** * Further properties *)

(** ** The multipart handlers *)

Lemma promises_cases {A E : Type} (promises : list (Js.settled A E)) :
  (∃ vs, promises = Js.Fulfilled <$> vs)
  ∨ (∃ k e, promises !! k = Some (Js.Rejected e)).
Proof.
  induction promises as [|[a | e] promises IH].
  - left. by exists [].
  - destruct IH as [[vs ->] | (k & e & Hk)].
    + left. by exists (a :: vs).
    + right. by exists (S k), e.
  - right. by exists 0%nat, e.
Qed.

(** Two orders of settlement give the same values, or a rejection each. *)
Lemma all_agree {A E : Type} (promises : list (Js.settled A E)) order1 order2 :
  order1 ≡ₚ seq 0 (length promises) →
  order2 ≡ₚ seq 0 (length promises) →
  (∃ vs, Js.all promises order1 = Some (Js.Fulfilled vs)
         ∧ Js.all promises order2 = Some (Js.Fulfilled vs))
  ∨ (∃ e1 e2, Js.all promises order1 = Some (Js.Rejected e1)
              ∧ Js.all promises order2 = Some (Js.Rejected e2)).
Proof.
  intros H1 H2. destruct (promises_cases promises) as [[vs ->] | (k & e & Hk)].
  - left. exists vs. rewrite length_fmap in H1, H2.
    by rewrite !all_fulfilled.
  - right. destruct (all_rejected promises order1 k e H1 Hk) as [e1 ->].
    destruct (all_rejected promises order2 k e H2 Hk) as [e2 ->].
    by exists e1, e2.
Qed.

(** X1.  The answer of the create and of the update handler, and the store
    they leave, do not depend on the order in which the uploads of the
    request settle, whether the uploads succeed or not. *)
Theorem handlers_ignore_completion_order cloud order id body files coll :
  Multipart.completion cloud ≡ₚ seq 0 (length files) →
  order ≡ₚ seq 0 (length files) →
  Multipart.post_products (with_completion order cloud) id body files coll
  = Multipart.post_products cloud id body files coll
  ∧ Multipart.put_product (with_completion order cloud) id body files coll
    = Multipart.put_product cloud id body files coll.
Proof.
  intros H1 H2.
  assert (Hlen : length (Multipart.uploadPromises cloud files) = length files).
  { unfold Multipart.uploadPromises. by rewrite length_imap. }
  rewrite <- Hlen in H1, H2.
  unfold Multipart.post_products, Multipart.put_product.
  change (Multipart.uploadPromises (with_completion order cloud) files)
    with (Multipart.uploadPromises cloud files).
  change (Multipart.completion (with_completion order cloud)) with order.
  destruct (all_agree _ _ _ H2 H1) as [(vs & -> & ->) | (e1 & e2 & -> & ->)];
    split; done.
Qed.

Lemma handlers_ignore_completion_order_witness :
  Multipart.post_products (with_completion [1; 0]%nat (Sample.failing_cloud [0; 1]%nat))
    2%N Sample.form [Sample.file0; Sample.file1] [Sample.stored_tea]
  = Multipart.post_products (Sample.failing_cloud [0; 1]%nat)
      2%N Sample.form [Sample.file0; Sample.file1] [Sample.stored_tea]
  ∧ Multipart.put_product (with_completion [1; 0]%nat (Sample.failing_cloud [0; 1]%nat))
      2%N Sample.form [Sample.file0; Sample.file1] [Sample.stored_tea]
    = Multipart.put_product (Sample.failing_cloud [0; 1]%nat)
        2%N Sample.form [Sample.file0; Sample.file1] [Sample.stored_tea].
Proof.
  apply (handlers_ignore_completion_order (Sample.failing_cloud [0; 1]%nat)
           [1; 0]%nat 2%N Sample.form [Sample.file0; Sample.file1]
           [Sample.stored_tea]).
  - reflexivity.
  - simpl. apply Permutation_swap.
Defined.



(** What an update by identifier does to the collection. *)
Lemma findByIdAndUpdate_spec id o coll p coll' :
  Product.findByIdAndUpdate id o coll = Some (p, coll') →
  ∃ l1 q l2, coll = l1 ++ q :: l2 ∧ Product._id q = id
             ∧ (∀ x, x ∈ l1 → Product._id x ≠ id)
             ∧ p = Product.set o q ∧ coll' = l1 ++ p :: l2.
Proof.
  revert p coll'. induction coll as [|x coll IH]; intros p coll'; [done |]. simpl.
  destruct (N.eqb_spec (Product._id x) id) as [Heq | Hne].
  - intros [= <- <-]. exists [], x, coll. repeat split; try done.
    intros y Hy. by apply elem_of_nil in Hy.
  - destruct (Product.findByIdAndUpdate id o coll) as [[q rest]|]; [| done].
    intros [= <- <-].
    destruct (IH q rest eq_refl) as (l1 & q' & l2 & -> & ? & Hl1 & ? & ->).
    exists (x :: l1), q', l2. repeat split; try done.
    intros y [-> | Hy]%elem_of_cons; [done | by apply Hl1].
Qed.








(** X5.  Whatever the request and the media store, the create handler
    answers 201 or 500 and nothing else: with 201 exactly the new product,
    which has the generated identifier and a name and a category, is added at
    the end of the collection; with 500 the collection is as it was. *)
Theorem create_is_all_or_nothing cloud id body files coll r coll' :
  Multipart.post_products cloud id body files coll = Some (r, coll') →
  (∃ p, r = respond 201 (ProductDoc p) ∧ coll' = coll ++ [p]
        ∧ Product._id p = id
        ∧ required (Product.name p) = true
        ∧ required (Product.category p) = true)
  ∨ (r = respond 500 (Message "Server error while creating product.")
     ∧ coll' = coll).
Proof.
  unfold Multipart.post_products, Multipart.server_error.
  destruct (Form.parse_or_empty _) as [variants|]; [| intros [= <- <-]; by right].
  destruct (Js.all _ _) as [[results | ?]|]; [| intros [= <- <-]; by right | done].
  destruct (Js.forEach _ _ _) as [main vs].
  set (p := Product.new id (Multipart.product_data body main vs)).
  unfold Product.save, Product.validate.
  destruct (required (Product.name p)) eqn:Hn; cbn [negb];
    [| intros [= <- <-]; by right].
  destruct (required (Product.category p)) eqn:Hc; cbn [negb];
    [| intros [= <- <-]; by right].
  intros [= <- <-]. left. exists p. by repeat split.
Qed.

Lemma create_is_all_or_nothing_witness :
  ∃ r coll',
    Multipart.post_products (Sample.cloud [1; 0]%nat) 2%N Sample.form
      [Sample.file0; Sample.file1] [Sample.stored_tea] = Some (r, coll')
    ∧ ((∃ p, r = respond 201 (ProductDoc p) ∧ coll' = [Sample.stored_tea] ++ [p]
             ∧ Product._id p = 2%N
             ∧ required (Product.name p) = true
             ∧ required (Product.category p) = true)
       ∨ (r = respond 500 (Message "Server error while creating product.")
          ∧ coll' = [Sample.stored_tea])).
Proof.
  eexists _, _. split; [reflexivity |].
  apply (create_is_all_or_nothing (Sample.cloud [1; 0]%nat) 2%N Sample.form
           [Sample.file0; Sample.file1] [Sample.stored_tea]).
  reflexivity.
Defined.

(** X6.  Whatever the request and the media store, the update handler
    answers 200, 404 or 500; it neither adds nor removes a document (the
    identifiers of the collection stay as they are, in their order), it
    leaves every document of another identifier as it is, and with 404 and
    500 the collection is as it was. *)
Theorem update_keeps_the_documents cloud id body files coll r coll' :
  Multipart.put_product cloud id body files coll = Some (r, coll') →
  Product._id <$> coll' = Product._id <$> coll
  ∧ (∀ x, x ∈ coll → Product._id x ≠ id → x ∈ coll')
  ∧ ((∃ p, r = respond 200 (ProductDoc p) ∧ p ∈ coll' ∧ Product._id p = id)
     ∨ (r = respond 404 (Message "Product not found.") ∧ coll' = coll)
     ∨ (r = respond 500 (Message "Server error while updating product.")
        ∧ coll' = coll)).
Proof.
  unfold Multipart.put_product, Multipart.server_error.
  destruct (Form.parse_or_empty (Form.variants body)) as [variants|];
    [| intros [= <- <-]; naive_solver].
  destruct (Form.parse_or_empty (Form.existingImages body)) as [imgs|];
    [| intros [= <- <-]; naive_solver].
  destruct (Js.all _ _) as [[results | ?]|]; [| intros [= <- <-]; naive_solver | done].
  destruct (Js.forEach _ _ _) as [main vs].
  destruct (Product.findByIdAndUpdate _ _ _) as [[p coll'']|] eqn:Hupd;
    [| intros [= <- <-]; naive_solver].
  intros [= <- <-].
  apply findByIdAndUpdate_spec in Hupd as (l1 & q & l2 & -> & Hq & _ & -> & ->).
  split; [| split].
  - by rewrite !fmap_app, !fmap_cons.
  - intros x Hx Hne. rewrite elem_of_app, elem_of_cons in Hx.
    rewrite elem_of_app, elem_of_cons.
    destruct Hx as [? | [-> | ?]]; [by left | done | by right; right].
  - left. eexists. split; [done |]. split; [| done].
    apply elem_of_app. right. by left.
Qed.

Lemma update_keeps_the_documents_witness :
  ∃ r coll',
    Multipart.put_product (Sample.cloud []) 1%N Sample.form []
      [Sample.stored_tea; Fixture.coffee] = Some (r, coll')
    ∧ Product._id <$> coll' = Product._id <$> [Sample.stored_tea; Fixture.coffee]
    ∧ (∀ x, x ∈ [Sample.stored_tea; Fixture.coffee] → Product._id x ≠ 1%N →
         x ∈ coll').
Proof.
  eexists _, _. split; [reflexivity |].
  destruct (update_keeps_the_documents (Sample.cloud []) 1%N Sample.form []
              [Sample.stored_tea; Fixture.coffee] _ _ eq_refl) as (Hids & Hothers & _).
  by split.
Defined.

Lemma routed_skip files results j f r (state : list string * list Js.value) :
  files !! j = Some f → results !! j = Some r →
  length results = length files →
  (∀ st, Multipart.route_field (Multipart.fieldname f) st r = st) →
  routed files results state = routed (delete j files) (delete j results) state.
Proof.
  intros Hf Hr Hlen Hskip.
  rewrite !delete_take_drop.
  rewrite <- (take_drop_middle files j f Hf) at 1.
  rewrite <- (take_drop_middle results j r Hr) at 1.
  assert (Htake : length (take j files) = length (take j results))
    by (rewrite !length_take; lia).
  rewrite !routed_app by done. by rewrite routed_cons, Hskip.
Qed.

Lemma route_field_unknown field state r :
  String.eqb field "images" = false →
  Js.startsWith "variant_image_" field = false →
  Multipart.route_field field state r = state.
Proof.
  intros Hi Hs. destruct state as [main vs]. unfold Multipart.route_field.
  by rewrite Hi, Hs.
Qed.

(** X7.  A file sent under a field name that is neither [images] nor starts
    with [variant_image_] changes nothing: with all uploads succeeding, the
    create and the update handler answer, and leave the store, exactly as
    for the same request sent without this file. *)
Theorem unknown_field_file_is_ignored cloud id body files coll j f order :
  files !! j = Some f →
  Multipart.fieldname f ≠ "images" →
  Js.startsWith "variant_image_" (Multipart.fieldname f) = false →
  uploads_succeed cloud files →
  order ≡ₚ seq 0 (length files - 1) →
  Multipart.post_products cloud id body files coll
  = Multipart.post_products (without_upload j order cloud) id body
      (delete j files) coll
  ∧ Multipart.put_product cloud id body files coll
    = Multipart.put_product (without_upload j order cloud) id body
        (delete j files) coll.
Proof.
  intros Hf Hi Hs Hup Hp.
  assert (Hup' : uploads_succeed (without_upload j order cloud) (delete j files))
    by (by apply uploads_succeed_without).
  assert (Hroute : ∀ state,
    routed files (uploaded cloud files) state
    = routed (delete j files)
        (uploaded (without_upload j order cloud) (delete j files)) state).
  { intros state. rewrite uploaded_without.
    destruct (lookup_lt_is_Some_2 (uploaded cloud files) j) as [r Hr].
    { rewrite uploaded_length. by eapply lookup_lt_Some. }
    apply (routed_skip files _ j f r); [done | done | apply uploaded_length |].
    intros st. apply route_field_unknown; [| done].
    by apply String.eqb_neq. }
  unfold Multipart.post_products, Multipart.put_product.
  rewrite !uploads_join by done.
  split.
  - destruct (Form.parse_or_empty (Form.variants body)); [| done].
    by rewrite !forEach_route, Hroute.
  - destruct (Form.parse_or_empty (Form.variants body)); [| done].
    destruct (Form.parse_or_empty (Form.existingImages body)); [| done].
    by rewrite !forEach_route, Hroute.
Qed.

Lemma unknown_field_file_is_ignored_witness :
  Multipart.post_products (Sample.cloud [2; 0; 1]%nat) 2%N Sample.form
    [Sample.file0; Fixture.thumbnail; Sample.file1] [Sample.stored_tea]
  = Multipart.post_products
      (without_upload 1 [1; 0]%nat (Sample.cloud [2; 0; 1]%nat)) 2%N Sample.form
      (delete 1%nat [Sample.file0; Fixture.thumbnail; Sample.file1])
      [Sample.stored_tea]
  ∧ Multipart.put_product (Sample.cloud [2; 0; 1]%nat) 2%N Sample.form
      [Sample.file0; Fixture.thumbnail; Sample.file1] [Sample.stored_tea]
    = Multipart.put_product
        (without_upload 1 [1; 0]%nat (Sample.cloud [2; 0; 1]%nat)) 2%N Sample.form
        (delete 1%nat [Sample.file0; Fixture.thumbnail; Sample.file1])
        [Sample.stored_tea].
Proof.
  apply (unknown_field_file_is_ignored (Sample.cloud [2; 0; 1]%nat) 2%N Sample.form
           [Sample.file0; Fixture.thumbnail; Sample.file1] [Sample.stored_tea]
           1 Fixture.thumbnail [1; 0]%nat); try done.
  - split; [intros i f _; by eexists |].
    simpl. etrans; [apply Permutation_swap |]. apply perm_skip, Permutation_swap.
  - simpl. apply Permutation_swap.
Defined.








(** ** The field-name convention *)













(** X11.  The category list of the second multipart server answers 200 with
    one object per category in use: no object twice, every object of the
    form [{name}] with the category of some product, and every category of a
    product present. *)
Theorem categories_in_use_are_listed_once coll :
  (Multipart.get_categories coll).1 = 200%nat
  ∧ NoDup (Multipart.get_categories coll).2
  ∧ (∀ v, v ∈ (Multipart.get_categories coll).2 →
       ∃ n p, v = Js.Obj [("name", Js.Str n)] ∧ p ∈ coll
              ∧ Product.category p = Some n)
  ∧ (∀ p n, p ∈ coll → Product.category p = Some n →
       Js.Obj [("name", Js.Str n)] ∈ (Multipart.get_categories coll).2).
Proof.
  unfold Multipart.get_categories, Product.distinct. simpl.
  split; [done |]. split; [| split].
  - apply NoDup_fmap_2_strong; [| apply NoDup_remove_dups].
    by intros n1 n2 _ _ [= ->].
  - intros v (n & -> & Hn)%list_elem_of_fmap.
    apply elem_of_remove_dups, list_elem_of_omap in Hn as (p & Hp & Hc).
    by exists n, p.
  - intros p n Hp Hc.
    apply (list_elem_of_fmap_2 (fun name => Js.Obj [("name", Js.Str name)])).
    apply elem_of_remove_dups, list_elem_of_omap. by exists p.
Qed.

(** ** The plain server, further *)

(** X12.  A payload whose name or category is missing or empty is refused:
    the plain server answers 400 and the collection is as it was. *)
Theorem post_refuses_payload_without_required_fields id body coll :
  required (Body.name body) = false ∨ required (Body.category body) = false →
  ∃ m, Server.post_products id body coll = (respond 400 (Message m), coll).
Proof.
  intros Hmissing. unfold Server.post_products, Product.save, Product.validate.
  change (Product.name (Product.new id body)) with (Body.name body).
  change (Product.category (Product.new id body)) with (Body.category body).
  destruct (required (Body.name body)); [| by eexists].
  destruct (required (Body.category body)); [| by eexists].
  by destruct Hmissing.
Qed.

Lemma post_refuses_payload_without_required_fields_witness :
  ∃ m, Server.post_products 2%N
         {| Body.name := Some ""; Body.category := Some "Drinks";
            Body.description := None; Body.price := Some 3; Body.img := None;
            Body.images := None; Body.variants := None |}
         [Sample.stored_tea]
       = (respond 400 (Message m), [Sample.stored_tea]).
Proof.
  apply post_refuses_payload_without_required_fields. by left.
Defined.





(** X15.  Deleting by the identifier of a stored product answers 200 and
    removes the first document of that identifier and nothing else: the
    documents before and after it stay, in their order. *)
Theorem delete_removes_one_document id coll :
  (∃ q, q ∈ coll ∧ Product._id q = id) →
  ∃ p l1 l2,
    coll = l1 ++ p :: l2 ∧ Product._id p = id
    ∧ (∀ x, x ∈ l1 → Product._id x ≠ id)
    ∧ Server.delete_product id coll
      = (respond 200 (Message "Product deleted successfully"), l1 ++ l2).
Proof.
  intros (q & Hq & Hid). unfold Server.delete_product.
  induction coll as [|x coll IH]; [by apply elem_of_nil in Hq |]. simpl.
  destruct (N.eqb_spec (Product._id x) id) as [Heq | Hne].
  - exists x, [], coll. repeat split; try done.
    intros y Hy. by apply elem_of_nil in Hy.
  - apply elem_of_cons in Hq as [-> | Hq]; [done |].
    destruct (IH Hq) as (p & l1 & l2 & -> & Hp & Hl1 & Hdel).
    destruct (Product.findByIdAndDelete id (l1 ++ p :: l2)) as [[p' rest]|];
      [| done].
    injection Hdel as ->. exists p, (x :: l1), l2. repeat split; try done.
    intros y [-> | Hy]%elem_of_cons; [done | by apply Hl1].
Qed.

Lemma delete_removes_one_document_witness :
  ∃ p l1 l2,
    [Sample.stored_tea; Fixture.coffee; Fixture.crisps] = l1 ++ p :: l2
    ∧ Product._id p = 5%N
    ∧ (∀ x, x ∈ l1 → Product._id x ≠ 5%N)
    ∧ Server.delete_product 5%N [Sample.stored_tea; Fixture.coffee; Fixture.crisps]
      = (respond 200 (Message "Product deleted successfully"), l1 ++ l2).
Proof.
  apply delete_removes_one_document.
  exists Fixture.coffee. split; [by right; left | reflexivity].
Defined.




(** ** The category-aware server, further *)

#[local] Instance ascending_trans : Transitive Category.ascending.
Proof. unfold Category.ascending. intros a b c. lia. Qed.

#[local] Instance ascending_total : Total Category.ascending.
Proof. unfold Category.ascending. intros a b. lia. Qed.

(** X17.  The category list answers 200 with all categories of the
    collection, each once, in ascending order of position. *)
Theorem categories_are_listed_by_position db :
  ∃ l, Catalog.get_categories db = (respond 200 (Categories l), db)
       ∧ l ≡ₚ categories db
       ∧ StronglySorted Category.ascending l.
Proof.
  eexists. split; [reflexivity |]. split.
  - apply merge_sort_Permutation.
  - apply StronglySorted_merge_sort; apply _.
Qed.

Lemma filter_bool {A : Type} (f : A → bool) (l : list A) :
  List.filter f l = filter (fun x => f x = true) l.
Proof.
  induction l as [|x l IH]; [done |]. simpl.
  destruct (f x) eqn:Hf.
  - rewrite filter_cons_True by done. by rewrite IH.
  - rewrite filter_cons_False by (by rewrite Hf). done.
Qed.

Lemma deleteMany_filter n coll :
  Product.deleteMany n coll = filter (fun p => Product.category p ≠ n) coll.
Proof.
  unfold Product.deleteMany, Product.in_category. rewrite filter_bool.
  apply list_filter_iff. intros p. rewrite negb_true_iff.
  by rewrite bool_decide_eq_false.
Qed.

(** X18.  Deleting a category that has no document answers 404 and changes
    nothing.  Deleting one that has a document answers 200, removes every
    product of that category and no other product, and removes the category
    and no other category. *)
Theorem delete_category_cascades n db :
  NoDup (Category.name <$> categories db) →
  ((∀ c, c ∈ categories db → Category.name c ≠ Some n) →
   Catalog.delete_category n db = (respond 404 (Message "Category not found"), db))
  ∧ ((∃ c, c ∈ categories db ∧ Category.name c = Some n) →
     Catalog.delete_category n db
     = (respond 200
          (Message ("Category '" +:+ n +:+ "' and all its products have been deleted.")),
        {| products := filter (fun p => Product.category p ≠ Some n) (products db);
           categories :=
             filter (fun c => Category.name c ≠ Some n) (categories db) |})).
Proof.
  intros Hnd. unfold Catalog.delete_category. split.
  - intros Hno. by rewrite findOne_none.
  - intros (c & Hc & Hn).
    destruct (findOne_some (Some n) _ c Hc Hn) as (c' & -> & _).
    by rewrite deleteMany_filter, deleteOne_filter.
Qed.

Lemma delete_category_cascades_witness :
  Catalog.delete_category "Drinks" Fixture.db
  = (respond 200
       (Message "Category 'Drinks' and all its products have been deleted."),
     {| products := [Fixture.crisps]; categories := [Sample.snacks] |})
  ∧ Catalog.delete_category "Sweets" Fixture.db
    = (respond 404 (Message "Category not found"), Fixture.db).
Proof.
  assert (Hnd : NoDup (Category.name <$> categories Fixture.db)).
  { simpl. apply NoDup_cons. split; [| apply NoDup_singleton].
    intros Hin. by apply list_elem_of_singleton in Hin. }
  split.
  - destruct (delete_category_cascades "Drinks" Fixture.db Hnd) as [_ Hfound].
    rewrite Hfound; [reflexivity |].
    exists Sample.drinks. split; [by right; left | reflexivity].
  - destruct (delete_category_cascades "Sweets" Fixture.db Hnd) as [Hmissing _].
    apply Hmissing. intros c Hc.
    apply elem_of_cons in Hc as [-> | Hc]; [done |].
    apply list_elem_of_singleton in Hc as ->. done.
Defined.

Lemma updateMany_fmap c c' coll :
  Product.updateMany c c' coll
  = (fun p => if decide (Product.category p = c)
              then Product.make (Product._id p) (Product.name p) c'
                     (Product.description p) (Product.price p) (Product.img p)
                     (Product.images p) (Product.variants p)
              else p) <$> coll.
Proof.
  unfold Product.updateMany, Product.in_category.
  induction coll as [|p coll IH]; [done |]. simpl. rewrite IH. f_equal.
  by case_bool_decide; case_decide.
Qed.

Lemma rename_fmap old new coll :
  NoDup (Category.name <$> coll) →
  Category.updateOne old (Category.set_name new) coll
  = (fun c => if decide (Category.name c = old)
              then Category.make (Category._id c) new (Category.position c)
              else c) <$> coll.
Proof.
  intros Hnd. rewrite updateOne_fmap by done.
  apply list_fmap_ext. intros i c _. unfold Category.named.
  by case_bool_decide; case_decide.
Qed.

(** X19.  A rename to a non-empty name that no category has answers 200;
    every product of the old category gets the new category and is otherwise
    unchanged, every other product is untouched, and the category keeps its
    identifier and position under the new name.  When the two names differ,
    no product and no category of the old name is left. *)
Theorem rename_cascades oldName newName db :
  newName ≠ "" →
  (∀ c, c ∈ categories db → Category.name c ≠ Some newName) →
  NoDup (Category.name <$> categories db) →
  ∃ db',
    Catalog.put_category_name oldName (Some newName) db
    = (respond 200
         (Message ("Category '" +:+ oldName +:+ "' was successfully renamed to '"
                   +:+ newName +:+ "'.")), db')
    ∧ products db'
      = (fun p => if decide (Product.category p = Some oldName)
                  then Product.make (Product._id p) (Product.name p) (Some newName)
                         (Product.description p) (Product.price p) (Product.img p)
                         (Product.images p) (Product.variants p)
                  else p) <$> products db
    ∧ categories db'
      = (fun c => if decide (Category.name c = Some oldName)
                  then Category.make (Category._id c) (Some newName)
                         (Category.position c)
                  else c) <$> categories db
    ∧ (oldName ≠ newName →
       (∀ p, p ∈ products db' → Product.category p ≠ Some oldName)
       ∧ (∀ c, c ∈ categories db' → Category.name c ≠ Some oldName)).
Proof.
  intros Hnew Hfree Hnd. eexists. unfold Catalog.put_category_name.
  assert (Hne : String.eqb newName "" = false) by (by apply String.eqb_neq).
  simpl. rewrite Hne, findOne_none by done.
  split; [reflexivity |]. simpl.
  rewrite updateMany_fmap, rename_fmap by done.
  split; [done |]. split; [done |]. intros Hdiff. split.
  - intros p (q & -> & Hq)%list_elem_of_fmap.
    case_decide as Hc; simpl; [| done]. by intros [= ->].
  - intros c (d & -> & Hd)%list_elem_of_fmap.
    case_decide as Hc; simpl; [| done]. by intros [= ->].
Qed.

Lemma rename_cascades_witness :
  ∃ db',
    Catalog.put_category_name "Drinks" (Some "Beverages") Fixture.db
    = (respond 200
         (Message "Category 'Drinks' was successfully renamed to 'Beverages'."),
       db')
    ∧ (∀ p, p ∈ products db' → Product.category p ≠ Some "Drinks")
    ∧ (∀ c, c ∈ categories db' → Category.name c ≠ Some "Drinks").
Proof.
  destruct (rename_cascades "Drinks" "Beverages" Fixture.db)
    as (db' & Hput & _ & _ & Hgone).
  - done.
  - intros c Hc. apply elem_of_cons in Hc as [-> | Hc]; [done |].
    apply list_elem_of_singleton in Hc as ->. done.
  - simpl. apply NoDup_cons. split; [| apply NoDup_singleton].
    intros Hin. by apply list_elem_of_singleton in Hin.
  - exists db'. split; [exact Hput |]. by apply Hgone.
Defined.

Lemma find_none_app {A : Type} (f : A → bool) (l k : list A) :
  List.find f l = None → List.find f (l ++ k) = List.find f k.
Proof.
  induction l as [|x l IH]; [done |]. simpl.
  destruct (f x); [done | exact IH].
Qed.

(** X20.  Find-or-create is idempotent: once it has answered for a name, a
    second call for that name, whatever identifier it is given, finds the
    same category and leaves the collection as the first call left it. *)
Theorem find_or_create_twice id id' n coll c coll' :
  Catalog.findOrCreateCategory id n coll = Ok (c, coll') →
  Catalog.findOrCreateCategory id' n coll' = Ok (c, coll').
Proof.
  unfold Catalog.findOrCreateCategory.
  destruct (Category.findOne n coll) as [c0|] eqn:Hfind.
  - intros [= <- <-]. by rewrite Hfind.
  - unfold Category.save, Category.validate, Category.new. simpl.
    destruct (required n); [| done].
    destruct (existsb _ coll); [done |]. intros [= <- <-].
    unfold Category.findOne in *. rewrite find_none_app by done. simpl.
    unfold Category.named. simpl. by rewrite bool_decide_eq_true_2.
Qed.

Lemma find_or_create_twice_witness :
  ∃ c coll',
    Catalog.findOrCreateCategory 12%N (Some "Sweets") [Sample.snacks; Sample.drinks]
    = Ok (c, coll')
    ∧ Catalog.findOrCreateCategory 13%N (Some "Sweets") coll' = Ok (c, coll').
Proof.
  eexists _, _. split; [reflexivity |].
  apply (find_or_create_twice 12%N 13%N (Some "Sweets")
           [Sample.snacks; Sample.drinks]).
  reflexivity.
Defined.

(** ** What every reachable store satisfies *)

Lemma run_valid rs db db' :
  categories_valid (categories db) → run rs db = Some db' →
  categories_valid (categories db').
Proof.
  revert db. induction rs as [|r rs IH]; intros db Hvalid; simpl.
  - by intros [= <-].
  - destruct (Catalog.handle r db) as [[resp db1]|] eqn:Hr; [| done].
    apply IH. by eapply handle_valid.
Qed.

(** X21.  Whatever requests the category-aware server has answered since
    the empty store, the names of the categories are unique and none is
    missing or empty. *)
Theorem reachable_categories_are_valid rs db :
  run rs empty_db = Some db → categories_valid (categories db).
Proof. apply run_valid, empty_valid. Qed.

Lemma reachable_categories_are_valid_witness :
  ∃ db,
    run [Catalog.PostProducts 10%N 1%N Sample.tea;
         Catalog.PutCategoryName "Drinks" (Some "Beverages");
         Catalog.PostProducts 11%N 2%N Sample.tea;
         Catalog.DeleteProduct 1%N] empty_db = Some db
    ∧ categories_valid (categories db).
Proof.
  eexists. split; [reflexivity |].
  apply (reachable_categories_are_valid
           [Catalog.PostProducts 10%N 1%N Sample.tea;
            Catalog.PutCategoryName "Drinks" (Some "Beverages");
            Catalog.PostProducts 11%N 2%N Sample.tea;
            Catalog.DeleteProduct 1%N]).
  reflexivity.
Defined.

Lemma findOrCreateCategory_grows id n coll c coll' :
  Catalog.findOrCreateCategory id n coll = Ok (c, coll') →
  (∀ x, x ∈ coll → x ∈ coll') ∧ c ∈ coll' ∧ Category.name c = n.
Proof.
  unfold Catalog.findOrCreateCategory.
  destruct (Category.findOne n coll) as [c0|] eqn:Hfind.
  - intros [= <- <-]. split; [done |].
    unfold Category.findOne in Hfind. apply find_some in Hfind as [Hin Hn].
    split; [by apply list_elem_of_In |].
    unfold Category.named in Hn. by apply bool_decide_eq_true in Hn.
  - unfold Category.save, Category.new.
    destruct (Category.validate _); [| done].
    destruct (existsb _ coll); [done |]. intros [= <- <-].
    split; [| split; [| done]].
    + intros x Hx. apply elem_of_app. by left.
    + apply elem_of_app. right. by left.
Qed.

Lemma findByIdAndDelete_spec id coll p rest :
  Product.findByIdAndDelete id coll = Some (p, rest) →
  ∃ l1 l2, coll = l1 ++ p :: l2 ∧ rest = l1 ++ l2 ∧ Product._id p = id.
Proof.
  revert p rest. induction coll as [|x coll IH]; intros p rest; [done |]. simpl.
  destruct (N.eqb_spec (Product._id x) id) as [Heq | Hne].
  - intros [= <- <-]. by exists [], coll.
  - destruct (Product.findByIdAndDelete id coll) as [[q rest']|]; [| done].
    intros [= <- <-]. destruct (IH q rest' eq_refl) as (l1 & l2 & -> & -> & ?).
    by exists (x :: l1), l2.
Qed.

Lemma referenced_grow prods prods' cats cats' :
  referenced {| products := prods; categories := cats |} →
  (∀ p, p ∈ prods' → p ∈ prods) →
  (∀ p c, p ∈ prods' → c ∈ cats → Category.name c = Product.category p →
     ∃ c', c' ∈ cats' ∧ Category.name c' = Product.category p) →
  referenced {| products := prods'; categories := cats' |}.
Proof.
  intros Href Hsub Hcat p Hp. simpl in *.
  destruct (Href p (Hsub p Hp)) as (c & Hc & Hn). by eapply Hcat.
Qed.

(** Every request keeps every product's category among the categories. *)
Lemma handle_referenced r db resp db' :
  categories_valid (categories db) → referenced db →
  Catalog.handle r db = Some (resp, db') →
  referenced db'.
Proof.
  intros Hvalid Href. destruct db as [prods cats]. simpl in Hvalid.
  destruct r as [ | | cid pid payload | cid id payload | orderedCategories order
                | oldName newName | id | categoryName]; simpl.
  - by intros [= _ <-].
  - by intros [= _ <-].
  - unfold Catalog.post_products. simpl.
    destruct (Catalog.findOrCreateCategory _ _ _) as [[c cats']|] eqn:Hfind;
      [| by intros [= _ <-]].
    apply findOrCreateCategory_grows in Hfind as (Hsub & Hc & Hname).
    unfold Product.save. destruct (Product.validate _); intros [= _ <-].
    + intros p [Hp | ->%list_elem_of_singleton]%elem_of_app; simpl.
      * destruct (Href p Hp) as (d & Hd & Hn). exists d. split; [by apply Hsub | done].
      * by exists c.
    + eapply referenced_grow; [done | done |]. intros p d _ Hd Hn.
      exists d. split; [by apply Hsub | done].
  - unfold Catalog.put_product. simpl.
    destruct (Catalog.findOrCreateCategory _ _ _) as [[c cats']|] eqn:Hfind;
      [| by intros [= _ <-]].
    pose proof (findOrCreateCategory_valid _ _ _ _ _ Hvalid Hfind) as [_ Hreq].
    apply findOrCreateCategory_grows in Hfind as (Hsub & Hc & Hname).
    destruct (Product.findByIdAndUpdate _ _ _) as [[p prods']|] eqn:Hupd;
      intros [= _ <-].
    + apply findByIdAndUpdate_spec in Hupd as (l1 & q & l2 & -> & _ & _ & -> & ->).
      intros p Hp. simpl in *. rewrite elem_of_app, elem_of_cons in Hp.
      assert (Hold : ∀ x, x ∈ l1 ++ q :: l2 →
        ∃ d, d ∈ cats' ∧ Category.name d = Product.category x).
      { intros x Hx. destruct (Href x Hx) as (d & Hd & Hn).
        exists d. split; [by apply Hsub | done]. }
      destruct Hp as [Hp | [-> | Hp]].
      * apply Hold, elem_of_app. by left.
      * simpl. destruct (Body.category payload) as [v|] eqn:Hv.
        -- by exists c.
        -- rewrite Forall_forall in Hreq. specialize (Hreq c Hc).
           by rewrite Hname in Hreq.
      * apply Hold, elem_of_app. right. by right.
    + eapply referenced_grow; [done | done |]. intros p d _ Hd Hn.
      exists d. split; [by apply Hsub | done].
  - unfold Catalog.put_categories_order.
    destruct orderedCategories as [names|]; [| by intros [= _ <-]].
    destruct Hvalid as [Hnd _].
    destruct (Js.all _ _) as [[? | ?]|]; [| | done]; intros [= _ <-];
      (eapply referenced_grow; [done | done |]); intros p d _ Hd Hn;
      rewrite execute_fmap by done;
      exists (foldl (reposition names) d order);
      (split;
         [by apply (list_elem_of_fmap_2 (fun c => foldl (reposition names) c order)) |]);
      by destruct (foldl_reposition_keeps names order d) as [_ ->].
  - unfold Catalog.put_category_name.
    destruct (Catalog.missing newName) eqn:Hmiss; [by intros [= _ <-] |].
    destruct (Category.findOne newName _) eqn:Hfind; [by intros [= _ <-] |].
    intros [= _ <-]. destruct Hvalid as [Hnd _]. simpl.
    rewrite updateMany_fmap, rename_fmap by done.
    intros p (q & -> & Hq)%list_elem_of_fmap. simpl.
    destruct (Href q Hq) as (d & Hd & Hn). simpl in *.
    eexists. split; [by apply list_elem_of_fmap_2 |].
    rewrite Hn. by repeat case_decide.
  - unfold Catalog.delete_product. simpl.
    destruct (Product.findByIdAndDelete _ _) as [[p rest]|] eqn:Hdel;
      [| by intros [= _ <-]].
    intros [= _ <-].
    apply findByIdAndDelete_spec in Hdel as (l1 & l2 & -> & -> & _).
    destruct Hvalid as [Hnd _].
    eapply referenced_grow; [done | |].
    + intros q Hq. rewrite elem_of_app in Hq. rewrite elem_of_app, elem_of_cons.
      destruct Hq; [by left | by right; right].
    + intros q d Hq Hd Hn.
      destruct (Nat.eqb_spec (Product.countDocuments (Product.category p) (l1 ++ l2)) 0)
        as [Hz | _]; [| by exists d].
      exists d. split; [| done]. rewrite deleteOne_filter by done.
      apply list_elem_of_filter. split; [| done]. rewrite Hn. intros Heq.
      by apply (countDocuments_pos _ _ q Hq) in Heq.
  - unfold Catalog.delete_category. simpl.
    destruct (Category.findOne _ _); [| by intros [= _ <-]].
    intros [= _ <-]. destruct Hvalid as [Hnd _].
    rewrite deleteMany_filter, deleteOne_filter by done.
    eapply referenced_grow; [done | |].
    + by intros q [_ Hq]%list_elem_of_filter.
    + intros q d [Hq _]%list_elem_of_filter Hd Hn.
      exists d. split; [| done]. apply list_elem_of_filter. split; [| done].
      by rewrite Hn.
Qed.

Lemma run_referenced rs db db' :
  categories_valid (categories db) → referenced db →
  run rs db = Some db' → referenced db'.
Proof.
  revert db. induction rs as [|r rs IH]; intros db Hvalid Href; simpl.
  - by intros [= <-].
  - destruct (Catalog.handle r db) as [[resp db1]|] eqn:Hr; [| done].
    apply IH; [by eapply handle_valid | by eapply handle_referenced].
Qed.

(** X22.  Whatever requests the category-aware server has answered since
    the empty store, every product names a category that has a document. *)
Theorem reachable_products_are_referenced rs db :
  run rs empty_db = Some db → referenced db.
Proof.
  apply run_referenced; [apply empty_valid |].
  intros p Hp. by apply elem_of_nil in Hp.
Qed.

Lemma reachable_products_are_referenced_witness :
  ∃ db,
    run [Catalog.PostProducts 10%N 1%N Sample.tea;
         Catalog.PutCategoryName "Drinks" (Some "Beverages");
         Catalog.PostProducts 11%N 2%N Sample.tea;
         Catalog.DeleteCategory "Beverages"] empty_db = Some db
    ∧ referenced db.
Proof.
  eexists. split; [reflexivity |].
  apply (reachable_products_are_referenced
           [Catalog.PostProducts 10%N 1%N Sample.tea;
            Catalog.PutCategoryName "Drinks" (Some "Beverages");
            Catalog.PostProducts 11%N 2%N Sample.tea;
            Catalog.DeleteCategory "Beverages"]).
  reflexivity.
Defined.

(** ** Reordering and listing *)

Lemma reorder_joined names order db :
  NoDup (Category.name <$> categories db) →
  order ≡ₚ seq 0 (length names) →
  Catalog.put_categories_order (Some names) order db
  = Some (respond 200 (Message "Category order updated successfully."),
          {| products := products db;
             categories :=
               (fun c => foldl (reposition names) c order) <$> categories db |}).
Proof.
  intros Hnd Hp. unfold Catalog.put_categories_order.
  assert (Hall : Js.all
      (List.map (fun _ => Js.Fulfilled (E := Js.Error) ())
                (Catalog.order_updates names)) order
    = Some (Js.Fulfilled ((fun _ => ()) <$> Catalog.order_updates names))).
  { rewrite <- all_fulfilled with (order := order).
    - f_equal. by rewrite <- list_fmap_compose.
    - rewrite length_fmap. unfold Catalog.order_updates. by rewrite length_imap. }
  rewrite Hall. by rewrite execute_fmap.
Qed.

Lemma NoDup_fmap_inj {A B : Type} (f : A → B) (l : list A) x y :
  NoDup (f <$> l) → x ∈ l → y ∈ l → f x = f y → x = y.
Proof.
  induction l as [|z l IH]; intros Hnd Hx Hy Hf; [by apply elem_of_nil in Hx |].
  rewrite fmap_cons, NoDup_cons in Hnd. destruct Hnd as [Hz Hnd].
  apply elem_of_cons in Hx as [-> | Hx]; apply elem_of_cons in Hy as [-> | Hy].
  - done.
  - exfalso. apply Hz. rewrite Hf. by apply list_elem_of_fmap_2.
  - exfalso. apply Hz. rewrite <- Hf. by apply list_elem_of_fmap_2.
  - by apply IH.
Qed.

Lemma seq_sorted j n : StronglySorted le (seq j n).
Proof.
  revert j. induction n as [|n IH]; intros j; simpl; constructor; [apply IH |].
  apply Forall_seq. intros i Hi. lia.
Qed.

(** A sorted list without duplicates of [n] numbers below [n] counts from
    zero. *)
Lemma sorted_counts_from_zero (l : list nat) n :
  StronglySorted le l → NoDup l → (∀ x, x ∈ l → (x < n)%nat) → length l = n →
  l = seq 0 n.
Proof.
  intros Hs Hnd Hlt Hlen.
  apply (StronglySorted_unique le); [done | apply seq_sorted |].
  apply submseteq_length_Permutation.
  - apply NoDup_submseteq; [done |]. intros x Hx. apply elem_of_seq.
    specialize (Hlt x Hx). lia.
  - rewrite length_seq. lia.
Qed.

(** X23.  After a reorder request that lists every category exactly once,
    the category list comes back in the order of the request, in whatever
    order the store executed the updates. *)
Theorem reorder_then_list_follows_request names order db :
  NoDup (Category.name <$> categories db) →
  Category.name <$> categories db ≡ₚ Some <$> names →
  order ≡ₚ seq 0 (length names) →
  ∃ db' l,
    Catalog.put_categories_order (Some names) order db
    = Some (respond 200 (Message "Category order updated successfully."), db')
    ∧ Catalog.get_categories db' = (respond 200 (Categories l), db')
    ∧ Category.name <$> l = Some <$> names.
Proof.
  intros Hnd Hperm Hp.
  set (g := fun c => foldl (reposition names) c order).
  set (phi := fun c => Z.to_nat (Category.position c)).
  eexists _, _. split; [by apply reorder_joined |].
  split; [reflexivity |]. simpl. fold g.
  set (cats' := g <$> categories db).
  set (l := Category.find_sort_position cats').
  assert (Hnames : NoDup names).
  { apply (NoDup_fmap_1 Some). by rewrite <- Hperm. }
  assert (Hkeep : Category.name <$> cats' = Category.name <$> categories db).
  { unfold cats'. rewrite <- list_fmap_compose. apply list_fmap_ext.
    intros i c _. simpl. apply foldl_reposition_keeps. }
  assert (Hplace : ∀ x, x ∈ cats' →
    ∃ n, Category.name x = Some n ∧ names !! phi x = Some n
         ∧ Category.position x = Z.of_nat (phi x)).
  { intros x (c & -> & Hc)%list_elem_of_fmap.
    assert (Hin : Category.name c ∈ Some <$> names).
    { rewrite <- Hperm. by apply list_elem_of_fmap_2. }
    apply list_elem_of_fmap in Hin as (n & Hn & Hin).
    apply list_elem_of_lookup in Hin as [i Hi].
    destruct (foldl_reposition_listed names order c i n) as (i' & Hi' & Hpos);
      [| done | done |].
    { rewrite Hp. apply elem_of_seq. apply lookup_lt_Some in Hi. lia. }
    exists n. unfold g, phi. rewrite Hpos, Nat2Z.id.
    by destruct (foldl_reposition_keeps names order c) as [_ ->]. }
  assert (Hl : l ≡ₚ cats') by apply merge_sort_Permutation.
  assert (Hcount : phi <$> l = seq 0 (length names)).
  { apply sorted_counts_from_zero.
    - apply (StronglySorted_fmap _ Category.ascending).
      + unfold Category.ascending, phi. intros x y. lia.
      + apply StronglySorted_merge_sort; apply _.
    - rewrite Hl. apply NoDup_fmap_2_strong.
      + intros x y Hx Hy Hxy.
        destruct (Hplace x Hx) as (n & Hnx & Hix & _).
        destruct (Hplace y Hy) as (m & Hny & Hiy & _).
        apply (NoDup_fmap_inj Category.name cats'); [by rewrite Hkeep | done | done |].
        rewrite Hnx, Hny. rewrite Hxy in Hix. congruence.
      + apply (NoDup_fmap_1 Category.name). by rewrite Hkeep.
    - intros i (x & -> & Hx)%list_elem_of_fmap. rewrite Hl in Hx.
      destruct (Hplace x Hx) as (n & _ & Hix & _). by eapply lookup_lt_Some.
    - rewrite length_fmap, Hl. unfold cats'. rewrite length_fmap.
      apply Permutation_length in Hperm. by rewrite !length_fmap in Hperm. }
  apply list_eq. intros i. rewrite !list_lookup_fmap.
  destruct (l !! i) as [x|] eqn:Hx; simpl.
  - assert (Hi : phi x = i).
    { assert (Hphi : (phi <$> l) !! i = Some (phi x))
        by (by rewrite list_lookup_fmap, Hx).
      rewrite Hcount in Hphi. apply lookup_seq in Hphi. lia. }
    destruct (Hplace x) as (n & Hn & Hix & _).
    { rewrite <- Hl. by eapply list_elem_of_lookup_2. }
    rewrite Hi in Hix. by rewrite Hn, Hix.
  - apply lookup_ge_None in Hx.
    assert (Hlen : length l = length names).
    { rewrite <- (length_fmap phi), Hcount. apply length_seq. }
    rewrite lookup_ge_None_2 by lia. done.
Qed.

Lemma reorder_then_list_follows_request_witness :
  ∃ db' l,
    Catalog.put_categories_order (Some ["Drinks"; "Snacks"]) [1; 0]%nat Fixture.db
    = Some (respond 200 (Message "Category order updated successfully."), db')
    ∧ Catalog.get_categories db' = (respond 200 (Categories l), db')
    ∧ Category.name <$> l = Some <$> ["Drinks"; "Snacks"].
Proof.
  apply (reorder_then_list_follows_request ["Drinks"; "Snacks"] [1; 0]%nat
           Fixture.db).
  - simpl. apply NoDup_cons. split; [| apply NoDup_singleton].
    intros Hin. by apply list_elem_of_singleton in Hin.
  - simpl. apply Permutation_swap.
  - simpl. apply Permutation_swap.
Defined.

(** ** Creating categories on the way *)

Lemma findOrCreateCategory_new id n coll :
  n ≠ "" → (∀ c, c ∈ coll → Category.name c ≠ Some n) →
  ∃ pos, Catalog.findOrCreateCategory id (Some n) coll
         = Ok (Category.make id (Some n) pos, coll ++ [Category.make id (Some n) pos])
         ∧ ∀ x, x ∈ coll → Category.position x < pos.
Proof.
  intros Hn Hno. unfold Catalog.findOrCreateCategory.
  rewrite findOne_none by done.
  unfold Category.save, Category.validate, Category.new. simpl Category.name.
  rewrite required_nonempty by done. rewrite no_duplicate_name by done.
  eexists. split; [done |]. intros x Hx.
  destruct (Category.findOne_sort_position_desc coll) as [m|] eqn:Hm.
  - apply highest_position in Hm as [_ Hmax]. specialize (Hmax x Hx). lia.
  - apply highest_position_none in Hm. subst coll. by apply elem_of_nil in Hx.
Qed.


(** X24.  Creating a product whose category is new but whose name is missing
    answers 400 and saves no product, yet the category has been created and
    stays. *)
Theorem post_keeps_category_of_refused_product cid pid body db n :
  Body.category body = Some n → n ≠ "" →
  required (Body.name body) = false →
  (∀ c, c ∈ categories db → Category.name c ≠ Some n) →
  ∃ m pos,
    Catalog.post_products cid pid body db
    = (respond 400 (Message m),
       {| products := products db;
          categories := categories db ++ [Category.make cid (Some n) pos] |}).
Proof.
  intros Hcat Hn Hname Hno. unfold Catalog.post_products. rewrite Hcat.
  destruct (findOrCreateCategory_new cid n (categories db) Hn Hno) as (pos & -> & _).
  unfold Product.save, Product.validate.
  change (Product.name (Product.new pid body)) with (Body.name body).
  rewrite Hname. by eexists _, _.
Qed.

Lemma post_keeps_category_of_refused_product_witness :
  ∃ m pos,
    Catalog.post_products 12%N 7%N
      {| Body.name := None; Body.category := Some "Sweets";
         Body.description := None; Body.price := Some 1; Body.img := None;
         Body.images := None; Body.variants := None |} Fixture.db
    = (respond 400 (Message m),
       {| products := products Fixture.db;
          categories :=
            categories Fixture.db ++ [Category.make 12%N (Some "Sweets") pos] |}).
Proof.
  apply post_keeps_category_of_refused_product; try done.
  intros c Hc. apply elem_of_cons in Hc as [-> | Hc]; [done |].
  apply list_elem_of_singleton in Hc as ->. done.
Defined.

(** X25.  Creating a product without a category, or with an empty one,
    answers 400 and changes neither collection. *)
Theorem post_without_category_changes_nothing cid pid body db :
  Forall (fun c => required (Category.name c) = true) (categories db) →
  required (Body.category body) = false →
  ∃ m, Catalog.post_products cid pid body db = (respond 400 (Message m), db).
Proof.
  intros Hreq Hcat. unfold Catalog.post_products, Catalog.findOrCreateCategory.
  rewrite findOne_none.
  - unfold Category.save, Category.validate, Category.new. simpl Category.name.
    rewrite Hcat. by eexists.
  - rewrite Forall_forall in Hreq. intros c Hc Hn. specialize (Hreq c Hc).
    rewrite Hn in Hreq. congruence.
Qed.

Lemma post_without_category_changes_nothing_witness :
  ∃ m, Catalog.post_products 12%N 7%N
         {| Body.name := Some "Mints"; Body.category := None;
            Body.description := None; Body.price := Some 1; Body.img := None;
            Body.images := None; Body.variants := None |} Fixture.db
       = (respond 400 (Message m), Fixture.db).
Proof.
  apply post_without_category_changes_nothing; [| done].
  repeat constructor.
Defined.



(** X27.  A category created by find-or-create comes last in the category
    list. *)
Theorem new_category_is_listed_last id n cats prods :
  n ≠ "" → (∀ c, c ∈ cats → Category.name c ≠ Some n) →
  ∃ c cats' l,
    Catalog.findOrCreateCategory id (Some n) cats = Ok (c, cats')
    ∧ Catalog.get_categories {| products := prods; categories := cats' |}
      = (respond 200 (Categories l), {| products := prods; categories := cats' |})
    ∧ last l = Some c.
Proof.
  intros Hn Hno.
  destruct (findOrCreateCategory_new id n cats Hn Hno) as (pos & Hcreate & Hmax).
  set (c := Category.make id (Some n) pos) in *.
  eexists c, _, _. split; [exact Hcreate |]. split; [reflexivity |].
  simpl. unfold Category.find_sort_position.
  pose proof (merge_sort_Permutation Category.ascending (cats ++ [c])) as Hperm.
  pose proof (StronglySorted_merge_sort Category.ascending (cats ++ [c])) as Hsort.
  destruct (last (merge_sort Category.ascending (cats ++ [c]))) as [x|] eqn:Hlast.
  - f_equal. apply last_Some in Hlast as [l0 Hl0]. rewrite Hl0 in Hperm, Hsort.
    assert (Hx : x ∈ cats ++ [c]).
    { rewrite <- Hperm. apply elem_of_app. right. by left. }
    assert (Hc : c ∈ l0 ++ [x]).
    { rewrite Hperm. apply elem_of_app. right. by left. }
    apply elem_of_app in Hc as [Hc | Hc%list_elem_of_singleton]; [| done].
    apply elem_of_app in Hx as [Hx | Hx%list_elem_of_singleton]; [| done].
    exfalso.
    assert (Hle : Category.ascending c x).
    { eapply StronglySorted_app_1_elem_of; [exact Hsort | done | by left]. }
    unfold Category.ascending in Hle. specialize (Hmax x Hx). simpl in Hle. lia.
  - exfalso. apply last_None in Hlast. rewrite Hlast in Hperm.
    apply Permutation_nil_l in Hperm. by destruct cats.
Qed.

Lemma new_category_is_listed_last_witness :
  ∃ c cats' l,
    Catalog.findOrCreateCategory 12%N (Some "Sweets") [Sample.drinks; Sample.snacks]
    = Ok (c, cats')
    ∧ Catalog.get_categories {| products := []; categories := cats' |}
      = (respond 200 (Categories l), {| products := []; categories := cats' |})
    ∧ last l = Some c.
Proof.
  apply new_category_is_listed_last; [done |].
  intros c Hc. apply elem_of_cons in Hc as [-> | Hc]; [done |].
  apply list_elem_of_singleton in Hc as ->. done.
Defined.

(** ** Edges *)



(** X29.  A rename of a category that has no document and no product, to a
    free non-empty name, answers 200 all the same and changes nothing. *)
Theorem rename_of_unknown_category_changes_nothing oldName newName db :
  newName ≠ "" →
  (∀ c, c ∈ categories db → Category.name c ≠ Some newName) →
  (∀ c, c ∈ categories db → Category.name c ≠ Some oldName) →
  (∀ p, p ∈ products db → Product.category p ≠ Some oldName) →
  Catalog.put_category_name oldName (Some newName) db
  = (respond 200
       (Message ("Category '" +:+ oldName +:+ "' was successfully renamed to '"
                 +:+ newName +:+ "'.")), db).
Proof.
  intros Hnew Hfree Hcats Hprods. unfold Catalog.put_category_name.
  assert (Hne : String.eqb newName "" = false) by (by apply String.eqb_neq).
  simpl. rewrite Hne, findOne_none by done. f_equal.
  destruct db as [prods cats]. simpl in *. f_equal.
  - rewrite updateMany_fmap. etrans; [| apply list_fmap_id].
    apply list_fmap_ext. intros i p Hp. simpl.
    case_decide as Hc; [| done]. exfalso. apply (Hprods p); [| done].
    by eapply list_elem_of_lookup_2.
  - clear Hfree. induction cats as [|c cats IH]; [done |]. simpl.
    unfold Category.named.
    rewrite bool_decide_eq_false_2 by (apply Hcats; by left).
    f_equal. apply IH. intros d Hd. apply Hcats. by right.
Qed.

Lemma rename_of_unknown_category_changes_nothing_witness :
  Catalog.put_category_name "Sweets" (Some "Candy") Fixture.db
  = (respond 200
       (Message "Category 'Sweets' was successfully renamed to 'Candy'."),
     Fixture.db).
Proof.
  apply (rename_of_unknown_category_changes_nothing "Sweets" "Candy" Fixture.db).
  - done.
  - intros c Hc. repeat (apply elem_of_cons in Hc as [-> | Hc]; [done |]).
    by apply elem_of_nil in Hc.
  - intros c Hc. repeat (apply elem_of_cons in Hc as [-> | Hc]; [done |]).
    by apply elem_of_nil in Hc.
  - intros p Hp. repeat (apply elem_of_cons in Hp as [-> | Hp]; [done |]).
    by apply elem_of_nil in Hp.
Defined.
